(** * Probabilistic micropayment settlement core: SenderMonitor and the
      fee arithmetic of the TransactionManager

    A shallow embedding of [pm/sendermonitor.go] (package [pm]) and of the
    transaction-manager helpers exercised by the tests of package [eth].

    Conventions of the embedding:
    - [*big.Int] values are mathematical integers ([Z]); the [math/big]
      operations the code calls are written out in [Module BigInt].
    - The [senders] map is a [gmap] from addresses to [remoteSender] records.
      The map holds pointers in Go, but no other alias of a [remoteSender]
      exists, so updating in place and re-inserting the record coincide.
    - Methods run in a state monad over [World] whose outcome is either a
      value or a Go run-time panic (nil dereference).  Every call on the
      monitor, the broker and the metrics package appends an [Event] to a
      ghost [trace], so that "is invoked exactly once" can be stated.
    - The collaborators (SenderManager, TimeManager, Broker, TicketStore,
      the clock) are the fields of an [Env] record, in the manner of the
      stubs used by the package's tests.
    - The monitor mutex is not modelled: each public method is one atomic
      step and [redeemWinningTicket] is followed without interleaving. *)

From Stdlib Require Import ZArith List Lia String.
From stdpp Require Import base option gmap.

Local Open Scope Z_scope.

(** ** math/big *)

Module BigInt.

(** [x.Cmp(y)]: -1, 0 or +1. *)
Definition Cmp (x y : Z) : Z :=
  match x ?= y with
  | Lt => -1
  | Eq => 0
  | Gt => 1
  end.

(** [z.Div(x, y)] for [y <> 0]: Euclidean division, the remainder lies in
    [0, |y|).  (Go's [Quo] is the truncating one.) *)
Definition Div (x y : Z) : Z := Z.sgn y * (x / Z.abs y).

(** Conversion of a 64-bit pattern to [int64]. *)
Definition wrap64 (z : Z) : Z := (z + 2 ^ 63) mod 2 ^ 64 - 2 ^ 63.

(** [x.Int64()]: [v := int64(low64(x.abs)); if x.neg { v = -v }]. *)
Definition Int64 (x : Z) : Z :=
  let v := wrap64 (Z.abs x mod 2 ^ 64) in
  if x <? 0 then wrap64 (- v) else v.

End BigInt.

(** ** Data model *)

Definition Address := N.

(** Errors.  The ones built in [sendermonitor.go] have a constructor each;
    errors handed back by collaborators are [ErrExternal]. *)
Inductive error : Type :=
| ErrInsufficientPending
    (* "cannot subtract from insufficient pendingAmount" *)
| ErrZeroMaxFloat
    (* "max float is zero" *)
| ErrInsufficientMaxFloat (sender : Address) (faceValue maxFloat : Z)
    (* "insufficient max float sender=%v faceValue=%v maxFloat=%v" *)
| ErrSenderInfo (addr : Address) (cause : error)
    (* "could not get sender info for %v: %v" *)
| ErrSenderUnlockSoon (addr : Address)
    (* "deposit and reserve for sender %v is set to unlock soon" *)
| ErrExternal (msg : string).

(** A Go [(T, error)] result that is either a value or an error. *)
Inductive result (A : Type) : Type :=
| Ok (a : A)
| Err (e : error).
Arguments Ok {A} a.
Arguments Err {A} e.

(** The fields of [Ticket] the monitor reads, the winner-selection fields
    being opaque to it. *)
Record Ticket : Type := mkTicket {
  Sender : Address;
  FaceValue : Z;
  WinnerFields : Z
}.

Record SignedTicket : Type := mkSignedTicket {
  ticket_ : Ticket;   (* embedded *Ticket: ticket.Sender is ticket.Ticket.Sender *)
  Sig : list Z;
  RecipientRand : Z
}.

Record ReserveInfo : Type := mkReserveInfo {
  FundsRemaining : Z;
  ClaimedInCurrentRound : Z
}.

(** The [*big.Int] fields handed back with a nil error are not nil. *)
Record SenderInfo : Type := mkSenderInfo {
  Reserve : ReserveInfo;
  WithdrawRound : Z
}.

(** Handle of a transaction submitted by the broker. *)
Definition Transaction := Z.

(** Modelled from the spec: the type [ticketQueue] is not among the sources.
    A queue is the view of the persistent ticket store for one sender. *)
Record ticketQueue : Type := newTicketQueue {
  queueSender : Address
}.

Record remoteSender : Type := mkRemoteSender {
  pendingAmount : Z;
  queue : ticketQueue;
  lastAccess : Z
}.

Record senderMonitor : Type := mkSenderMonitor {
  claimant : Address;
  ttl : Z;
  senders : gmap Address remoteSender
}.

(** Calls recorded in the ghost trace. *)
Inductive Event : Type :=
| EvAddFloat (addr : Address) (amount : Z)
| EvSubFloat (addr : Address) (amount : Z)
| EvMaxFloat (addr : Address)
| EvQueueTicket (ticket : SignedTicket)
| EvCache (addr : Address)            (* queue started, consumer spawned *)
| EvRedeemWinningTicket (ticket : SignedTicket)
| EvCheckTx (tx : Transaction)
| EvTicketRedemptionError (sender : Address)
| EvValueRedeemed (sender : Address) (amount : Z).

(** The collaborators of one call. *)
Record Env : Type := mkEnv {
  (* SenderManager *)
  GetSenderInfo : Address -> result SenderInfo;
  (* both components of the Go result: the code reads the value without
     looking at the error *)
  ClaimedReserve : Address -> Address -> option Z * option error;
  (* TimeManager *)
  LastInitializedRound : Z;
  GetTranscoderPoolSize : Z;
  (* TicketStore, reached through ticketQueue.Add *)
  StoreWinningTicket : SignedTicket -> option error;
  (* Broker *)
  RedeemWinningTicket : Ticket -> list Z -> Z -> result Transaction;
  CheckTx : Transaction -> option error;
  (* unixNow and monitor.Enabled *)
  unixNow : Z;
  monitorEnabled : bool
}.

Record World : Type := mkWorld {
  sm : senderMonitor;
  tickets : list SignedTicket;   (* content of the persistent ticket store *)
  trace : list Event
}.

(** [NewSenderMonitor]: an empty cache. *)
Definition NewSenderMonitor (claimant : Address) (ttl : Z) : senderMonitor :=
  {| claimant := claimant; ttl := ttl; senders := ∅ |}.

Definition freshWorld (claimant : Address) (ttl : Z) (store : list SignedTicket) : World :=
  {| sm := NewSenderMonitor claimant ttl; tickets := store; trace := [] |}.

(** ** The monad of monitor methods *)

Inductive outcome (A : Type) : Type :=
| Val (a : A)
| Panic.
Arguments Val {A} a.
Arguments Panic {A}.

Definition M (A : Type) : Type := World -> outcome A * World.

Definition ret {A} (a : A) : M A := fun w => (Val a, w).

Definition bind {A B} (m : M A) (k : A -> M B) : M B :=
  fun w =>
    match m w with
    | (Val a, w') => k a w'
    | (Panic, w') => (Panic, w')
    end.

Definition panic {A} : M A := fun w => (Panic, w).

Notation "x <- m ;; k" := (bind m (fun x => k))
  (at level 100, m at next level, right associativity).
Notation "m ;;; k" := (bind m (fun _ => k))
  (at level 100, right associativity).

Definition emit (e : Event) : M unit :=
  fun w => (Val tt, {| sm := sm w; tickets := tickets w; trace := trace w ++ [e] |}).

Definition getSenders : M (gmap Address remoteSender) :=
  fun w => (Val (senders (sm w)), w).

Definition putSenders (m : gmap Address remoteSender) : M unit :=
  fun w => (Val tt,
            {| sm := {| claimant := claimant (sm w); ttl := ttl (sm w); senders := m |};
               tickets := tickets w; trace := trace w |}).

Definition getClaimant : M Address := fun w => (Val (claimant (sm w)), w).

(** [sm.senders[addr]] followed by a field access: a nil entry panics. *)
Definition sender (addr : Address) : M remoteSender :=
  m <- getSenders ;;
  match m !! addr with
  | Some rs => ret rs
  | None => panic
  end.

(** Go's [defer] with a named result: the deferred function runs on the way
    out, sees the result assigned so far and may replace it; it also runs
    when the body panics. *)
Definition with_defer {A} (deferred : A -> M A) (dflt : A) (body : M A) : M A :=
  fun w =>
    match body w with
    | (Val a, w') => deferred a w'
    | (Panic, w') => (Panic, snd (deferred dflt w'))
    end.

(** ** SenderMonitor *)

Section Monitor.

Variable env : Env.

(** [cache] *)
Definition cache (addr : Address) : M unit :=
  let queue := newTicketQueue addr in
  emit (EvCache addr) ;;;
  m <- getSenders ;;
  putSenders (<[addr := {| pendingAmount := 0;
                           queue := queue;
                           lastAccess := unixNow env |}]> m).

(** [ensureCache] *)
Definition ensureCache (addr : Address) : M unit :=
  m <- getSenders ;;
  (match m !! addr with
   | None => cache addr
   | Some _ => ret tt
   end) ;;;
  rs <- sender addr ;;
  m' <- getSenders ;;
  putSenders (<[addr := {| pendingAmount := pendingAmount rs;
                           queue := queue rs;
                           lastAccess := unixNow env |}]> m').

(** Assignment to [sm.senders[addr].pendingAmount] through the pointer. *)
Definition setPendingAmount (addr : Address) (v : Z) : M unit :=
  rs <- sender addr ;;
  m <- getSenders ;;
  putSenders (<[addr := {| pendingAmount := v;
                           queue := queue rs;
                           lastAccess := lastAccess rs |}]> m).

(** [AddFloat] *)
Definition AddFloat (addr : Address) (amount : Z) : M (option error) :=
  emit (EvAddFloat addr amount) ;;;
  ensureCache addr ;;;
  rs <- sender addr ;;
  let pendingAmount := pendingAmount rs in
  if BigInt.Cmp pendingAmount amount <? 0 then
    ret (Some ErrInsufficientPending)
  else
    setPendingAmount addr (pendingAmount - amount) ;;;
    ret None.

(** [SubFloat] *)
Definition SubFloat (addr : Address) (amount : Z) : M unit :=
  emit (EvSubFloat addr amount) ;;;
  ensureCache addr ;;;
  rs <- sender addr ;;
  let pendingAmount := pendingAmount rs in
  setPendingAmount addr (pendingAmount + amount).

(** [reserveAlloc] *)
Definition reserveAlloc (addr : Address) : M (result Z) :=
  match GetSenderInfo env addr with
  | Err err => ret (Err err)
  | Ok info =>
      cl <- getClaimant ;;
      let (claimed, err) := ClaimedReserve env addr cl in
      let poolSize := GetTranscoderPoolSize env in
      if BigInt.Cmp poolSize 0 =? 0 then
        ret (Ok 0)
      else
        let reserve := FundsRemaining (Reserve info) + ClaimedInCurrentRound (Reserve info) in
        match claimed with
        | Some claimed => ret (Ok (BigInt.Div reserve poolSize - claimed))
        | None => panic   (* Sub reads through a nil *big.Int *)
        end
  end.

(** [maxFloat] *)
Definition maxFloat (addr : Address) : M (result Z) :=
  r <- reserveAlloc addr ;;
  match r with
  | Err err => ret (Err err)
  | Ok reserveAlloc =>
      rs <- sender addr ;;
      ret (Ok (reserveAlloc - pendingAmount rs))
  end.

(** [MaxFloat] *)
Definition MaxFloat (addr : Address) : M (result Z) :=
  emit (EvMaxFloat addr) ;;;
  ensureCache addr ;;;
  maxFloat addr.

(** Modelled from the spec: [ticketQueue.Add] is not among the sources.
    "Add(ticket) - append to persistent store; fails only on store
    failure." *)
Definition ticketQueue_Add (q : ticketQueue) (ticket : SignedTicket) : M (option error) :=
  match StoreWinningTicket env ticket with
  | Some err => ret (Some err)
  | None =>
      fun w => (Val None,
                {| sm := sm w; tickets := tickets w ++ [ticket]; trace := trace w |})
  end.

(** [QueueTicket] *)
Definition QueueTicket (ticket : SignedTicket) : M (option error) :=
  emit (EvQueueTicket ticket) ;;;
  ensureCache (Sender (ticket_ ticket)) ;;;
  rs <- sender (Sender (ticket_ ticket)) ;;
  ticketQueue_Add (queue rs) ticket.

(** [ValidateSender] *)
Definition ValidateSender (addr : Address) : M (option error) :=
  match GetSenderInfo env addr with
  | Err err => ret (Some (ErrSenderInfo addr err))
  | Ok info =>
      let maxWithdrawRound := LastInitializedRound env + 1 in
      if negb (BigInt.Int64 (WithdrawRound info) =? 0)
         && negb (BigInt.Cmp (WithdrawRound info) maxWithdrawRound =? 1)
      then ret (Some (ErrSenderUnlockSoon addr))
      else ret None
  end.

(** The two broker calls and the two metrics, as recorded steps. *)
Definition broker_RedeemWinningTicket (ticket : SignedTicket) : M (result Transaction) :=
  emit (EvRedeemWinningTicket ticket) ;;;
  ret (RedeemWinningTicket env (ticket_ ticket) (Sig ticket) (RecipientRand ticket)).

Definition broker_CheckTx (tx : Transaction) : M (option error) :=
  emit (EvCheckTx tx) ;;;
  ret (CheckTx env tx).

Definition monitor_TicketRedemptionError (s : Address) : M unit :=
  if monitorEnabled env then emit (EvTicketRedemptionError s) else ret tt.

Definition monitor_ValueRedeemed (s : Address) (v : Z) : M unit :=
  if monitorEnabled env then emit (EvValueRedeemed s v) else ret tt.

(** The deferred closure of [redeemWinningTicket]: add the face value back
    and, if that fails, replace the result [err]. *)
Definition restoreFloat (ticket : SignedTicket) (err : option error) : M (option error) :=
  e <- AddFloat (Sender (ticket_ ticket)) (FaceValue (ticket_ ticket)) ;;
  match e with
  | Some e => ret (Some e)
  | None => ret err
  end.

(** The statements of [redeemWinningTicket] after the [defer]: submit the
    redemption and wait for it to confirm. *)
Definition brokerSteps (ticket : SignedTicket) : M (option error) :=
  r <- broker_RedeemWinningTicket ticket ;;
  match r with
  | Err e =>
      monitor_TicketRedemptionError (Sender (ticket_ ticket)) ;;;
      ret (Some e)
  | Ok tx =>
      e <- broker_CheckTx tx ;;
      match e with
      | Some e =>
          monitor_TicketRedemptionError (Sender (ticket_ ticket)) ;;;
          ret (Some e)
      | None =>
          monitor_ValueRedeemed (Sender (ticket_ ticket)) (FaceValue (ticket_ ticket)) ;;;
          ret None
      end
  end.

(** [redeemWinningTicket]; the result is the named return value [err]. *)
Definition redeemWinningTicket (ticket : SignedTicket) : M (option error) :=
  r <- MaxFloat (Sender (ticket_ ticket)) ;;
  match r with
  | Err e => ret (Some e)
  | Ok maxFloat =>
      if BigInt.Cmp maxFloat 0 <=? 0 then
        QueueTicket ticket ;;;
        ret (Some ErrZeroMaxFloat)
      else if BigInt.Cmp maxFloat (FaceValue (ticket_ ticket)) <? 0 then
        QueueTicket ticket ;;;
        ret (Some (ErrInsufficientMaxFloat (Sender (ticket_ ticket))
                                           (FaceValue (ticket_ ticket)) maxFloat))
      else
        SubFloat (Sender (ticket_ ticket)) (FaceValue (ticket_ ticket)) ;;;
        with_defer (restoreFloat ticket) None (brokerSteps ticket)
  end.

End Monitor.

(** ** Pure descriptions of the state changes *)

(** [pendingAmount] of a sender, read as 0 for a sender that is not cached
    (the value [cache] gives it on first reference). *)
Definition pendingOr0 (w : World) (addr : Address) : Z :=
  match senders (sm w) !! addr with
  | Some rs => pendingAmount rs
  | None => 0
  end.

Definition withSenders (m : gmap Address remoteSender) (w : World) : World :=
  {| sm := {| claimant := claimant (sm w); ttl := ttl (sm w); senders := m |};
     tickets := tickets w; trace := trace w |}.

Definition logged (e : Event) (w : World) : World :=
  {| sm := sm w; tickets := tickets w; trace := trace w ++ [e] |}.

(** The world after [ensureCache]. *)
Definition touched (env : Env) (addr : Address) (w : World) : World :=
  match senders (sm w) !! addr with
  | Some rs =>
      withSenders (<[addr := {| pendingAmount := pendingAmount rs;
                                queue := queue rs;
                                lastAccess := unixNow env |}]> (senders (sm w))) w
  | None =>
      withSenders (<[addr := {| pendingAmount := 0;
                                queue := newTicketQueue addr;
                                lastAccess := unixNow env |}]> (senders (sm w)))
                  (logged (EvCache addr) w)
  end.

(** The world after an assignment to a cached sender's [pendingAmount]. *)
Definition pendingSet (addr : Address) (v : Z) (w : World) : World :=
  match senders (sm w) !! addr with
  | Some rs =>
      withSenders (<[addr := {| pendingAmount := v;
                                queue := queue rs;
                                lastAccess := lastAccess rs |}]> (senders (sm w))) w
  | None => w
  end.

Definition stored (t : SignedTicket) (w : World) : World :=
  {| sm := sm w; tickets := tickets w ++ [t]; trace := trace w |}.

(** Every cached sender has a non-negative [pendingAmount]. *)
Definition pending_nonneg (w : World) : Prop :=
  forall (addr : Address) (rs : remoteSender),
    senders (sm w) !! addr = Some rs -> 0 <= pendingAmount rs.

Definition is_float_event (e : Event) : bool :=
  match e with
  | EvAddFloat _ _ | EvSubFloat _ _ => true
  | _ => false
  end.

Definition is_queue_event (e : Event) : bool :=
  match e with
  | EvQueueTicket _ => true
  | _ => false
  end.

(** The error [redeemWinningTicket] reports for a max float that fails the
    float checks. *)
Definition floatError (ticket : SignedTicket) (maxFloat : Z) : error :=
  if maxFloat <=? 0 then ErrZeroMaxFloat
  else ErrInsufficientMaxFloat (Sender (ticket_ ticket)) (FaceValue (ticket_ ticket)) maxFloat.

(** The same collaborators with another ticket store. *)
Definition withStore (f : SignedTicket -> option error) (env : Env) : Env :=
  {| GetSenderInfo := GetSenderInfo env;
     ClaimedReserve := ClaimedReserve env;
     LastInitializedRound := LastInitializedRound env;
     GetTranscoderPoolSize := GetTranscoderPoolSize env;
     StoreWinningTicket := f;
     RedeemWinningTicket := RedeemWinningTicket env;
     CheckTx := CheckTx env;
     unixNow := unixNow env;
     monitorEnabled := monitorEnabled env |}.

(** Sequences of public calls, each with the collaborators of its time. *)
Inductive call : Type :=
| CallAddFloat (addr : Address) (amount : Z)
| CallSubFloat (addr : Address) (amount : Z)
| CallQueueTicket (ticket : SignedTicket).

Definition call_nonneg (c : Env * call) : Prop :=
  match snd c with
  | CallAddFloat _ amount => 0 <= amount
  | CallSubFloat _ amount => 0 <= amount
  | CallQueueTicket _ => True
  end.

Definition run_call (c : Env * call) (w : World) : outcome unit * World :=
  match c with
  | (env, CallAddFloat addr amount) => (_ <- AddFloat env addr amount ;; ret tt) w
  | (env, CallSubFloat addr amount) => SubFloat env addr amount w
  | (env, CallQueueTicket ticket) => (_ <- QueueTicket env ticket ;; ret tt) w
  end.

Fixpoint run_calls (cs : list (Env * call)) (w : World) : World :=
  match cs with
  | [] => w
  | c :: cs' => run_calls cs' (snd (run_call c w))
  end.

(** None of the calls of a sequence panics. *)
Fixpoint calls_return (cs : list (Env * call)) (w : World) : Prop :=
  match cs with
  | [] => True
  | c :: cs' => fst (run_call c w) = Val tt /\ calls_return cs' (snd (run_call c w))
  end.

(** What [MaxFloat] returns, as a function of what it reads. *)
Definition maxFloatOutcome (env : Env) (cl addr : Address) (pending : Z)
  : outcome (result Z) :=
  match GetSenderInfo env addr with
  | Err err => Val (Err err)
  | Ok info =>
      if GetTranscoderPoolSize env =? 0 then Val (Ok (0 - pending))
      else
        match fst (ClaimedReserve env addr cl) with
        | Some claimed =>
            Val (Ok (BigInt.Div (FundsRemaining (Reserve info)
                                 + ClaimedInCurrentRound (Reserve info))
                                (GetTranscoderPoolSize env)
                     - claimed - pending))
        | None => Panic
        end
  end.

(** ** The broker steps and the whole redemption attempt *)

Definition appended (evs : list Event) (w : World) : World :=
  {| sm := sm w; tickets := tickets w; trace := trace w ++ evs |}.

Definition redemptionErrorMetric (env : Env) (s : Address) : list Event :=
  if monitorEnabled env then [EvTicketRedemptionError s] else [].

(** The error left in [err] by the statements after the [defer]. *)
Definition brokerResult (env : Env) (ticket : SignedTicket) : option error :=
  match RedeemWinningTicket env (ticket_ ticket) (Sig ticket) (RecipientRand ticket) with
  | Err e => Some e
  | Ok tx => CheckTx env tx
  end.

Definition brokerEvents (env : Env) (ticket : SignedTicket) : list Event :=
  EvRedeemWinningTicket ticket ::
  match RedeemWinningTicket env (ticket_ ticket) (Sig ticket) (RecipientRand ticket) with
  | Err _ => redemptionErrorMetric env (Sender (ticket_ ticket))
  | Ok tx =>
      EvCheckTx tx ::
      match CheckTx env tx with
      | Some _ => redemptionErrorMetric env (Sender (ticket_ ticket))
      | None =>
          if monitorEnabled env
          then [EvValueRedeemed (Sender (ticket_ ticket)) (FaceValue (ticket_ ticket))]
          else []
      end
  end.

(** The float checks of [redeemWinningTicket] were reached and one of them
    sent the ticket back to the queue. *)
Definition floatCheckFails (env : Env) (ticket : SignedTicket) (w : World) : Prop :=
  exists maxFloat,
    fst (MaxFloat env (Sender (ticket_ ticket)) w) = Val (Ok maxFloat)
    /\ (maxFloat <= 0 \/ maxFloat < FaceValue (ticket_ ticket)).


(** The event [ensureCache] leaves in the trace: none for a cached sender. *)
Definition cacheEvent (w : World) (addr : Address) : list Event :=
  match senders (sm w) !! addr with
  | Some _ => []
  | None => [EvCache addr]
  end.

Definition is_broker_event (e : Event) : bool :=
  match e with
  | EvRedeemWinningTicket _ | EvCheckTx _ => true
  | _ => false
  end.

(** Events that are neither float, queue nor broker calls. *)
Definition quiet (evs : list Event) : Prop :=
  List.filter is_float_event evs = []
  /\ List.filter is_queue_event evs = []
  /\ List.filter is_broker_event evs = [].

(** ** The statements of the specification, in its own words *)

(** "reserveAlloc(s) = (reserve.remaining + reserve.claimedThisRound) /
    poolSize - claimed(s, this recipient)" with truncating division, and 0
    for an empty pool. *)
Definition reserveAlloc_spec (info : SenderInfo) (poolSize claimed : Z) : Z :=
  if poolSize =? 0 then 0
  else (FundsRemaining (Reserve info) + ClaimedInCurrentRound (Reserve info)) ÷ poolSize
       - claimed.

(** "fails if withdrawRound != 0 && withdrawRound <= lastInitializedRound + 1" *)
Definition unlocksSoon_spec (withdrawRound lastInitializedRound : Z) : Prop :=
  withdrawRound <> 0 /\ withdrawRound <= lastInitializedRound + 1.

(** ** Collaborator stubs for the examples *)

Definition stubSenderInfo (funds claimedInRound withdrawRound : Z) : SenderInfo :=
  {| Reserve := {| FundsRemaining := funds; ClaimedInCurrentRound := claimedInRound |};
     WithdrawRound := withdrawRound |}.

Definition stubEnv (info : result SenderInfo) (claimed : option Z * option error)
           (lastRound poolSize : Z) (storeErr : option error)
           (redeem : result Transaction) (check : option error) : Env :=
  {| GetSenderInfo := fun _ => info;
     ClaimedReserve := fun _ _ => claimed;
     LastInitializedRound := lastRound;
     GetTranscoderPoolSize := poolSize;
     StoreWinningTicket := fun _ => storeErr;
     RedeemWinningTicket := fun _ _ _ => redeem;
     CheckTx := fun _ => check;
     unixNow := 1000;
     monitorEnabled := true |}.

(** A sender with a reserve of 1000 shared by a pool of 10, of which this
    recipient has claimed 0: the reserve allocation is 100. *)
Definition goodEnv : Env :=
  stubEnv (Ok (stubSenderInfo 900 100 0)) (Some 0, None) 5 10 None (Ok 77) None.

Definition stubTicket (s : Address) (faceValue : Z) : SignedTicket :=
  {| ticket_ := {| Sender := s; FaceValue := faceValue; WinnerFields := 0 |};
     Sig := [];
     RecipientRand := 0 |}.

(** ** TransactionManager: fee arithmetic *)

Module TransactionManager.

(** The fields of [types.DynamicFeeTx] set by [newStubDynamicFeeTx]. *)
Record Tx : Type := mkTx {
  Nonce : Z;
  GasFeeCap : Z;
  GasTipCap : Z;
  Gas : Z;
  Value : Z;
  Data : list Z;
  To : Address
}.

(** [tx.Hash()], idealised as collision-free: the sequence of the hashed
    fields. *)
Definition Hash (tx : Tx) : list Z :=
  Nonce tx :: GasFeeCap tx :: GasTipCap tx :: Gas tx :: Value tx :: Z.of_N (To tx)
    :: Data tx.

(** [newStubDynamicFeeTx]; the random recipient and payload are arguments. *)
Definition newStubDynamicFeeTx (addr : Address) (data : list Z) (gasFeeCap gasTipCap : Z)
  : Tx :=
  {| Nonce := 1;
     GasFeeCap := gasFeeCap;
     GasTipCap := gasTipCap;
     Gas := 1000000;
     Value := 100;
     Data := data;
     To := addr |}.

Definition withGasFeeCap (cap : Z) (tx : Tx) : Tx :=
  {| Nonce := Nonce tx;
     GasFeeCap := cap;
     GasTipCap := GasTipCap tx;
     Gas := Gas tx;
     Value := Value tx;
     Data := Data tx;
     To := To tx |}.

(** Modelled from the spec: [applyPriceBump] is not among the sources, only
    its test is.  "newCap = oldCap x (100 + priceBump) / 100, truncating
    toward zero." *)
Definition applyPriceBump (val priceBump : Z) : Z :=
  (val * (100 + priceBump)) ÷ 100.

(** [TestApplyPriceBump], over the implementation under test. *)
Definition TestApplyPriceBump (impl : Z -> Z -> Z) : bool :=
  (impl 500 0 =? 500)
  && (impl 500 11 =? 555)
  && (impl 500 17 =? 585)
  && (impl 500 101 =? 1005)
  && (impl 50 11 =? 55).

(** Modelled from the spec: [newAdjustedTx] is not among the sources, only
    its test is.  "When GasPriceMonitor.maxGasPrice is set and tx.gasFeeCap >
    maxGasPrice, return a copy of tx with gasFeeCap = maxGasPrice (other
    fields unchanged).  Otherwise return tx unchanged."  [None] is a nil
    [maxGasPrice]. *)
Definition newAdjustedTx_spec (maxGasPrice : option Z) (tx : Tx) : Tx :=
  match maxGasPrice with
  | Some m => if m <? GasFeeCap tx then withGasFeeCap m tx else tx
  | None => tx
  end.

(** Modelled from the spec: [newAdjustedTx] is not among the sources, only
    its test is.  This is the spec's "return a copy of tx with gasFeeCap =
    maxGasPrice (other fields unchanged)" whenever [maxGasPrice] is set:
    the guard [tx.gasFeeCap > maxGasPrice] of the spec is left out, because
    [TestNewAdjustedTx] requires a transaction with [gasFeeCap] 1000 to come
    back with [gasFeeCap] 1100 and another hash under [maxGasPrice] 1100. *)
Definition newAdjustedTx (maxGasPrice : option Z) (tx : Tx) : Tx :=
  match maxGasPrice with
  | Some m => withGasFeeCap m tx
  | None => tx
  end.

Definition eqb_list (l1 l2 : list Z) : bool :=
  bool_decide (l1 = l2).

(** [assertTxFieldsUnchanged]; its third assertion compares [tx1.Value()]
    with itself. *)
Definition assertTxFieldsUnchanged (tx1 tx2 : Tx) : bool :=
  (Nonce tx1 =? Nonce tx2)
  && (Gas tx1 =? Gas tx2)
  && (Value tx1 =? Value tx1)
  && (To tx1 =? To tx2)%N.

(** [TestNewAdjustedTx], over the implementation under test; the
    [GasPriceMonitor] of the test has no [maxGasPrice] at first and
    [maxGasPrice] 1100 afterwards. *)
Definition TestNewAdjustedTx (addr : Address) (data : list Z)
           (impl : option Z -> Tx -> Tx) : bool :=
  let gasTipCap := 100 in
  let gasFeeCap := 1000 in
  let tx1 := newStubDynamicFeeTx addr data gasFeeCap gasTipCap in
  (* Gas Price Monitor with no maxGasPrice *)
  let tx2 := impl None tx1 in
  let first :=
    (GasFeeCap tx1 =? GasFeeCap tx2)
    && (GasTipCap tx1 =? GasTipCap tx2)
    && eqb_list (Hash tx1) (Hash tx2)
    && assertTxFieldsUnchanged tx1 tx2 in
  (* maxGasPrice set in Gas Price Monitor *)
  let maxGasFee := 1100 in
  let tx2' := impl (Some maxGasFee) tx1 in
  first
  && (maxGasFee =? GasFeeCap tx2')
  && (GasTipCap tx1 =? GasTipCap tx2')
  && negb (eqb_list (Hash tx1) (Hash tx2'))
  && assertTxFieldsUnchanged tx1 tx2'.

End TransactionManager.

(** ** Eviction and the ticket-queue consumer *)

(** [unixNow()-v.lastAccess > int64(sm.ttl)], in [int64] arithmetic. *)
Definition expired (env : Env) (ttl : Z) (v : remoteSender) : bool :=
  ttl <? BigInt.wrap64 (unixNow env - lastAccess v).

(** The same test for a clock that reads [now]. *)
Definition expiredAt (now : Z) (ttl : Z) (v : remoteSender) : bool :=
  ttl <? BigInt.wrap64 (now - lastAccess v).

(** One iteration of the [range] loop of [cleanup] over the entry [kv], the
    clock reading [now] at that iteration: the accumulator is the [senders]
    map and the senders evicted so far, each of which got a signal on its
    [done] channel and a [SenderManager.Clear].  The send on [done] is taken
    to complete: the sender's consumer is in its [select]. *)
Definition cleanupStep (now : Z) (ttl : Z)
           (acc : gmap Address remoteSender * list Address)
           (kv : Address * remoteSender) : gmap Address remoteSender * list Address :=
  if expiredAt now ttl kv.2
  then (delete kv.1 acc.1, acc.2 ++ [kv.1])
  else acc.

(** The [range] loop of [cleanup] from its [i]-th iteration on.  [unixNow()]
    is called at every iteration; [clock i] is what it returns at the
    [i]-th. *)
Fixpoint cleanupFrom (clock : nat -> Z) (ttl : Z) (i : nat)
         (order : list (Address * remoteSender))
         (acc : gmap Address remoteSender * list Address)
  : gmap Address remoteSender * list Address :=
  match order with
  | [] => acc
  | kv :: order' => cleanupFrom clock ttl (S i) order' (cleanupStep (clock i) ttl acc kv)
  end.

(** [cleanup], the entries being visited in the given order under the given
    clock.  Go leaves the order of a [range] over a map unspecified; an entry
    deleted by the loop is the one being visited, so every entry is visited
    once. *)
Definition cleanupOver (clock : nat -> Z) (order : list (Address * remoteSender)) (w : World)
  : list Address * World :=
  let r := cleanupFrom clock (ttl (sm w)) 0 order (senders (sm w), []) in
  (r.2, withSenders r.1 w).

(** [cleanup] with the clock of [env], a stub that returns the same time at
    every call: the evicted senders and the world afterwards. *)
Definition cleanup (env : Env) (w : World) : list Address * World :=
  cleanupOver (fun _ => unixNow env) (map_to_list (senders (sm w))) w.

(** The senders the loop evicts from its [i]-th iteration on. *)
Fixpoint evictedFrom (clock : nat -> Z) (ttl : Z) (i : nat)
         (order : list (Address * remoteSender)) : list Address :=
  match order with
  | [] => []
  | kv :: order' =>
      (if expiredAt (clock i) ttl kv.2 then [kv.1] else [])
      ++ evictedFrom clock ttl (S i) order'
  end.

(** What one [select] of [startTicketQueueConsumerLoop] received. *)
Inductive selected : Type :=
| SelRedeemable (env : Env) (ticket : SignedTicket)   (* ticket := <-queue.Redeemable() *)
| SelDone                                             (* <-done *)
| SelQuit.                                            (* <-sm.quit *)

(** How far the loop got: it returned after [queue.Stop()], or it is blocked
    in its [select]. *)
Inductive loopState : Type :=
| QueueStopped
| Selecting.

(** [startTicketQueueConsumerLoop], along the sequence of what its [select]
    receives.  The error of [redeemWinningTicket] is only logged. *)
Fixpoint startTicketQueueConsumerLoop (sels : list selected) : M loopState :=
  match sels with
  | [] => ret Selecting
  | SelRedeemable env ticket :: sels' =>
      _ <- redeemWinningTicket env ticket ;;
      startTicketQueueConsumerLoop sels'
  | SelDone :: _ => ret QueueStopped
  | SelQuit :: _ => ret QueueStopped
  end.

(** The tickets the loop receives before it is told to stop. *)
Fixpoint receivedTickets (sels : list selected) : list SignedTicket :=
  match sels with
  | SelRedeemable _ ticket :: sels' => ticket :: receivedTickets sels'
  | _ => []
  end.

Definition is_MaxFloat_event (e : Event) : bool :=
  match e with
  | EvMaxFloat _ => true
  | _ => false
  end.

Definition is_metric_event (e : Event) : bool :=
  match e with
  | EvTicketRedemptionError _ | EvValueRedeemed _ _ => true
  | _ => false
  end.

(** The sender a public call names. *)
Definition call_sender (c : call) : Address :=
  match c with
  | CallAddFloat addr _ => addr
  | CallSubFloat addr _ => addr
  | CallQueueTicket ticket => Sender (ticket_ ticket)
  end.

(** The same collaborators at another time. *)
Definition atTime (now : Z) (env : Env) : Env :=
  {| GetSenderInfo := GetSenderInfo env;
     ClaimedReserve := ClaimedReserve env;
     LastInitializedRound := LastInitializedRound env;
     GetTranscoderPoolSize := GetTranscoderPoolSize env;
     StoreWinningTicket := StoreWinningTicket env;
     RedeemWinningTicket := RedeemWinningTicket env;
     CheckTx := CheckTx env;
     unixNow := now;
     monitorEnabled := monitorEnabled env |}.

(** [MaxFloat] returned a float that passes both float checks of
    [redeemWinningTicket]. *)
Definition floatCovers (env : Env) (ticket : SignedTicket) (w : World) : bool :=
  match fst (MaxFloat env (Sender (ticket_ ticket)) w) with
  | Val (Ok maxFloat) => (0 <? maxFloat) && (FaceValue (ticket_ ticket) <=? maxFloat)
  | _ => false
  end.

(** The calls of one [redeemWinningTicket], in order. *)
Definition redeemEvents (env : Env) (ticket : SignedTicket) (w : World) : list Event :=
  EvMaxFloat (Sender (ticket_ ticket)) :: cacheEvent w (Sender (ticket_ ticket)) ++
  match fst (MaxFloat env (Sender (ticket_ ticket)) w) with
  | Val (Ok maxFloat) =>
      if (0 <? maxFloat) && (FaceValue (ticket_ ticket) <=? maxFloat)
      then EvSubFloat (Sender (ticket_ ticket)) (FaceValue (ticket_ ticket))
             :: brokerEvents env ticket
             ++ [EvAddFloat (Sender (ticket_ ticket)) (FaceValue (ticket_ ticket))]
      else [EvQueueTicket ticket]
  | _ => []
  end.

(** The loop was told to stop after the tickets it received. *)
Fixpoint stopSignalled (sels : list selected) : bool :=
  match sels with
  | [] => false
  | SelRedeemable _ _ :: sels' => stopSignalled sels'
  | _ => true
  end.

(** The tickets the loop receives before it is told to stop, each with the
    collaborators of its time. *)
Fixpoint receivedAttempts (sels : list selected) : list (Env * SignedTicket) :=
  match sels with
  | SelRedeemable env ticket :: sels' => (env, ticket) :: receivedAttempts sels'
  | _ => []
  end.

(** [redeemWinningTicket] on each ticket in turn, whatever each returns. *)
Fixpoint redeemEach (ts : list (Env * SignedTicket)) (w : World) : World :=
  match ts with
  | [] => w
  | (env, ticket) :: ts' => redeemEach ts' (snd (redeemWinningTicket env ticket w))
  end.
(** ** Equations of the methods *)

Lemma Cmp_lt (x y : Z) : (BigInt.Cmp x y <? 0) = (x <? y).
Proof.
  unfold BigInt.Cmp. destruct (Z.compare_spec x y) as [E | L | G]; simpl.
  - subst. symmetry. apply Z.ltb_irrefl.
  - symmetry. now apply Z.ltb_lt.
  - symmetry. apply Z.ltb_ge. lia.
Qed.

Lemma Cmp_le (x y : Z) : (BigInt.Cmp x y <=? 0) = (x <=? y).
Proof.
  unfold BigInt.Cmp. destruct (Z.compare_spec x y) as [E | L | G]; simpl.
  - subst. symmetry. apply Z.leb_refl.
  - symmetry. apply Z.leb_le. lia.
  - symmetry. apply Z.leb_gt. lia.
Qed.

Lemma Cmp_eq (x y : Z) : (BigInt.Cmp x y =? 0) = (x =? y).
Proof.
  unfold BigInt.Cmp. destruct (Z.compare_spec x y) as [E | L | G]; simpl.
  - subst. symmetry. apply Z.eqb_refl.
  - symmetry. apply Z.eqb_neq. lia.
  - symmetry. apply Z.eqb_neq. lia.
Qed.

Lemma Cmp_gt (x y : Z) : (BigInt.Cmp x y =? 1) = (y <? x).
Proof.
  unfold BigInt.Cmp. destruct (Z.compare_spec x y) as [E | L | G]; simpl.
  - subst. symmetry. apply Z.ltb_irrefl.
  - symmetry. apply Z.ltb_ge. lia.
  - symmetry. now apply Z.ltb_lt.
Qed.

Section Equations.

Variable env : Env.

Lemma touched_lookup (addr : Address) (w : World) :
  senders (sm (touched env addr w)) !! addr =
    Some {| pendingAmount := pendingOr0 w addr;
            queue := match senders (sm w) !! addr with
                     | Some rs => queue rs
                     | None => newTicketQueue addr
                     end;
            lastAccess := unixNow env |}.
Proof.
  unfold touched, pendingOr0.
  destruct (senders (sm w) !! addr) as [rs|] eqn:E; simpl;
    now rewrite lookup_insert_eq.
Qed.

Lemma touched_lookup_ne (addr a : Address) (w : World) :
  a <> addr ->
  senders (sm (touched env addr w)) !! a = senders (sm w) !! a.
Proof.
  intros Hne. unfold touched.
  destruct (senders (sm w) !! addr) as [rs|] eqn:E; simpl;
    now rewrite lookup_insert_ne by congruence.
Qed.

Lemma ensureCache_eq (addr : Address) (w : World) :
  ensureCache env addr w = (Val tt, touched env addr w).
Proof.
  unfold ensureCache, touched, cache, sender, bind, getSenders, putSenders,
    emit, ret, panic, withSenders, logged.
  simpl. destruct (senders (sm w) !! addr) as [rs|] eqn:E; simpl.
  - now rewrite E.
  - rewrite lookup_insert_eq. simpl. now rewrite insert_insert_eq.
Qed.

Lemma sender_touched (addr : Address) (w : World) :
  exists rs, sender addr (touched env addr w) = (Val rs, touched env addr w)
             /\ pendingAmount rs = pendingOr0 w addr.
Proof.
  eexists. unfold sender, bind, getSenders, ret. simpl.
  rewrite touched_lookup. split; reflexivity.
Qed.

Lemma setPendingAmount_touched (addr : Address) (v : Z) (w : World) :
  setPendingAmount addr v (touched env addr w)
  = (Val tt, pendingSet addr v (touched env addr w)).
Proof.
  unfold setPendingAmount, pendingSet, sender, bind, getSenders, putSenders, ret.
  simpl. rewrite touched_lookup. reflexivity.
Qed.

Lemma AddFloat_eq (addr : Address) (amount : Z) (w : World) :
  AddFloat env addr amount w =
    let w1 := touched env addr (logged (EvAddFloat addr amount) w) in
    if pendingOr0 w addr <? amount
    then (Val (Some ErrInsufficientPending), w1)
    else (Val None, pendingSet addr (pendingOr0 w addr - amount) w1).
Proof.
  unfold AddFloat. unfold bind at 1. simpl.
  unfold bind at 1. rewrite ensureCache_eq.
  destruct (sender_touched addr (logged (EvAddFloat addr amount) w)) as (rs & Hs & Hp).
  unfold bind at 1. fold (logged (EvAddFloat addr amount) w). rewrite Hs.
  rewrite Cmp_lt, Hp.
  change (pendingOr0 (logged (EvAddFloat addr amount) w) addr) with (pendingOr0 w addr).
  destruct (pendingOr0 w addr <? amount); [reflexivity|].
  unfold bind. now rewrite setPendingAmount_touched.
Qed.

Lemma SubFloat_eq (addr : Address) (amount : Z) (w : World) :
  SubFloat env addr amount w =
    (Val tt, pendingSet addr (pendingOr0 w addr + amount)
               (touched env addr (logged (EvSubFloat addr amount) w))).
Proof.
  unfold SubFloat. unfold bind at 1. simpl.
  unfold bind at 1. rewrite ensureCache_eq.
  destruct (sender_touched addr (logged (EvSubFloat addr amount) w)) as (rs & Hs & Hp).
  unfold bind at 1. fold (logged (EvSubFloat addr amount) w). rewrite Hs, Hp.
  change (pendingOr0 (logged (EvSubFloat addr amount) w) addr) with (pendingOr0 w addr).
  now rewrite setPendingAmount_touched.
Qed.

Lemma QueueTicket_eq (ticket : SignedTicket) (w : World) :
  QueueTicket env ticket w =
    let w1 := touched env (Sender (ticket_ ticket)) (logged (EvQueueTicket ticket) w) in
    match StoreWinningTicket env ticket with
    | Some err => (Val (Some err), w1)
    | None => (Val None, stored ticket w1)
    end.
Proof.
  unfold QueueTicket. unfold bind at 1. simpl.
  unfold bind at 1. rewrite ensureCache_eq.
  destruct (sender_touched (Sender (ticket_ ticket)) (logged (EvQueueTicket ticket) w))
    as (rs & Hs & Hp).
  unfold bind at 1. fold (logged (EvQueueTicket ticket) w). rewrite Hs.
  unfold ticketQueue_Add.
  destruct (StoreWinningTicket env ticket); reflexivity.
Qed.

End Equations.

Section Observations.

Variable env : Env.

Lemma claimant_touched (addr : Address) (w : World) :
  claimant (sm (touched env addr w)) = claimant (sm w).
Proof. unfold touched. now destruct (senders (sm w) !! addr). Qed.

Lemma MaxFloat_eq (addr : Address) (w : World) :
  MaxFloat env addr w =
    (maxFloatOutcome env (claimant (sm w)) addr (pendingOr0 w addr),
     touched env addr (logged (EvMaxFloat addr) w)).
Proof.
  unfold MaxFloat. unfold bind at 1. simpl.
  unfold bind at 1. rewrite ensureCache_eq.
  fold (logged (EvMaxFloat addr) w).
  set (w1 := touched env addr (logged (EvMaxFloat addr) w)).
  destruct (sender_touched env addr (logged (EvMaxFloat addr) w)) as (rs & Hs & Hp).
  fold w1 in Hs.
  change (pendingOr0 (logged (EvMaxFloat addr) w) addr) with (pendingOr0 w addr) in Hp.
  assert (Hc : claimant (sm w1) = claimant (sm w)).
  { unfold w1. now rewrite claimant_touched. }
  unfold maxFloat, reserveAlloc, maxFloatOutcome.
  destruct (GetSenderInfo env addr) as [info | err]; [| reflexivity].
  unfold bind at 1. unfold bind at 1. unfold getClaimant at 1. rewrite Hc.
  destruct (ClaimedReserve env addr (claimant (sm w))) as [claimed cerr]. simpl fst.
  rewrite Cmp_eq.
  destruct (GetTranscoderPoolSize env =? 0).
  - unfold ret at 1. unfold bind. rewrite Hs. unfold ret. now rewrite Hp.
  - destruct claimed as [claimed |]; [| reflexivity].
    unfold ret at 1. unfold bind. rewrite Hs. unfold ret. rewrite Hp.
    reflexivity.
Qed.

(** [pendingOr0], [tickets] and [trace] across the state changes. *)

Lemma pendingOr0_logged (e : Event) (w : World) (a : Address) :
  pendingOr0 (logged e w) a = pendingOr0 w a.
Proof. reflexivity. Qed.

Lemma pendingOr0_stored (t : SignedTicket) (w : World) (a : Address) :
  pendingOr0 (stored t w) a = pendingOr0 w a.
Proof. reflexivity. Qed.

Lemma pendingOr0_touched (addr : Address) (w : World) (a : Address) :
  pendingOr0 (touched env addr w) a = pendingOr0 w a.
Proof.
  destruct (decide (a = addr)) as [-> | Hne].
  - unfold pendingOr0 at 1. now rewrite touched_lookup.
  - unfold pendingOr0. now rewrite touched_lookup_ne.
Qed.

Lemma pendingOr0_pendingSet (addr : Address) (v : Z) (w : World) (a : Address) :
  pendingOr0 (pendingSet addr v (touched env addr w)) a =
    if decide (a = addr) then v else pendingOr0 w a.
Proof.
  unfold pendingSet. rewrite touched_lookup.
  destruct (decide (a = addr)) as [-> | Hne].
  - unfold pendingOr0. simpl. now rewrite lookup_insert_eq.
  - rewrite <- (pendingOr0_touched addr w a).
    unfold pendingOr0. simpl. now rewrite lookup_insert_ne by congruence.
Qed.

Lemma tickets_touched (addr : Address) (w : World) :
  tickets (touched env addr w) = tickets w.
Proof. unfold touched. now destruct (senders (sm w) !! addr). Qed.

Lemma tickets_pendingSet (addr : Address) (v : Z) (w : World) :
  tickets (pendingSet addr v w) = tickets w.
Proof. unfold pendingSet. now destruct (senders (sm w) !! addr). Qed.

Lemma trace_touched (addr : Address) (w : World) :
  trace (touched env addr w) =
    trace w ++ match senders (sm w) !! addr with
               | Some _ => []
               | None => [EvCache addr]
               end.
Proof.
  unfold touched. destruct (senders (sm w) !! addr); simpl.
  - now rewrite app_nil_r.
  - reflexivity.
Qed.

Lemma trace_pendingSet (addr : Address) (v : Z) (w : World) :
  trace (pendingSet addr v w) = trace w.
Proof. unfold pendingSet. now destruct (senders (sm w) !! addr). Qed.

Lemma pending_nonneg_pendingOr0 (w : World) :
  pending_nonneg w <-> forall a, 0 <= pendingOr0 w a.
Proof.
  unfold pending_nonneg, pendingOr0. split.
  - intros H a. destruct (senders (sm w) !! a) as [rs|] eqn:E; [eauto | lia].
  - intros H a rs E. specialize (H a). now rewrite E in H.
Qed.

End Observations.

(** ** Paths through the redemption attempt *)

Lemma brokerSteps_eq (env : Env) (ticket : SignedTicket) (w : World) :
  brokerSteps env ticket w =
    (Val (brokerResult env ticket), appended (brokerEvents env ticket) w).
Proof.
  unfold brokerSteps, brokerResult, brokerEvents, broker_RedeemWinningTicket,
    broker_CheckTx, monitor_TicketRedemptionError, monitor_ValueRedeemed,
    redemptionErrorMetric, appended, bind, emit, ret.
  simpl.
  destruct (RedeemWinningTicket env (ticket_ ticket) (Sig ticket) (RecipientRand ticket))
    as [tx | e]; simpl.
  - destruct (CheckTx env tx) as [e |]; destruct (monitorEnabled env); simpl;
      rewrite <- ?app_assoc; reflexivity.
  - destruct (monitorEnabled env); simpl; rewrite <- ?app_assoc, ?app_nil_r; reflexivity.
Qed.

Lemma float_filter_brokerEvents (env : Env) (ticket : SignedTicket) :
  List.filter is_float_event (brokerEvents env ticket) = [].
Proof.
  unfold brokerEvents, redemptionErrorMetric.
  destruct (RedeemWinningTicket env (ticket_ ticket) (Sig ticket) (RecipientRand ticket))
    as [tx | e]; simpl.
  - destruct (CheckTx env tx); destruct (monitorEnabled env); reflexivity.
  - destruct (monitorEnabled env); reflexivity.
Qed.

Lemma queue_filter_brokerEvents (env : Env) (ticket : SignedTicket) :
  List.filter is_queue_event (brokerEvents env ticket) = [].
Proof.
  unfold brokerEvents, redemptionErrorMetric.
  destruct (RedeemWinningTicket env (ticket_ ticket) (Sig ticket) (RecipientRand ticket))
    as [tx | e]; simpl.
  - destruct (CheckTx env tx); destruct (monitorEnabled env); reflexivity.
  - destruct (monitorEnabled env); reflexivity.
Qed.

(** The three ways through [redeemWinningTicket] once [MaxFloat] has returned
    a value, and the two ways out before that. *)

Lemma redeem_MaxFloat_fails (env : Env) (ticket : SignedTicket) (w : World) (e : error) :
  fst (MaxFloat env (Sender (ticket_ ticket)) w) = Val (Err e) ->
  redeemWinningTicket env ticket w =
    (Val (Some e), snd (MaxFloat env (Sender (ticket_ ticket)) w)).
Proof.
  intros H. unfold redeemWinningTicket, bind.
  destruct (MaxFloat env (Sender (ticket_ ticket)) w) as [o w1]. simpl in *. now subst o.
Qed.

Lemma redeem_MaxFloat_panics (env : Env) (ticket : SignedTicket) (w : World) :
  fst (MaxFloat env (Sender (ticket_ ticket)) w) = Panic ->
  redeemWinningTicket env ticket w =
    (Panic, snd (MaxFloat env (Sender (ticket_ ticket)) w)).
Proof.
  intros H. unfold redeemWinningTicket, bind.
  destruct (MaxFloat env (Sender (ticket_ ticket)) w) as [o w1]. simpl in *. now subst o.
Qed.

Lemma redeem_requeues (env : Env) (ticket : SignedTicket) (w : World) (maxFloat : Z) :
  fst (MaxFloat env (Sender (ticket_ ticket)) w) = Val (Ok maxFloat) ->
  maxFloat <= 0 \/ maxFloat < FaceValue (ticket_ ticket) ->
  redeemWinningTicket env ticket w =
    (Val (Some (floatError ticket maxFloat)),
     snd (QueueTicket env ticket (snd (MaxFloat env (Sender (ticket_ ticket)) w)))).
Proof.
  intros H Hmf. unfold redeemWinningTicket. unfold bind at 1.
  destruct (MaxFloat env (Sender (ticket_ ticket)) w) as [o w1]. simpl in *. subst o.
  rewrite Cmp_le, Cmp_lt. unfold floatError.
  destruct (maxFloat <=? 0) eqn:E0.
  - unfold bind, ret. rewrite QueueTicket_eq. simpl.
    destruct (StoreWinningTicket env ticket); reflexivity.
  - apply Z.leb_gt in E0.
    assert (E1 : (maxFloat <? FaceValue (ticket_ ticket)) = true) by (apply Z.ltb_lt; lia).
    rewrite E1. unfold bind, ret. rewrite QueueTicket_eq. simpl.
    destruct (StoreWinningTicket env ticket); reflexivity.
Qed.

Lemma redeem_attempts (env : Env) (ticket : SignedTicket) (w : World) (maxFloat : Z) :
  fst (MaxFloat env (Sender (ticket_ ticket)) w) = Val (Ok maxFloat) ->
  0 < maxFloat ->
  FaceValue (ticket_ ticket) <= maxFloat ->
  redeemWinningTicket env ticket w =
    restoreFloat env ticket (brokerResult env ticket)
      (appended (brokerEvents env ticket)
         (snd (SubFloat env (Sender (ticket_ ticket)) (FaceValue (ticket_ ticket))
                 (snd (MaxFloat env (Sender (ticket_ ticket)) w))))).
Proof.
  intros H H0 H1. unfold redeemWinningTicket. unfold bind at 1.
  destruct (MaxFloat env (Sender (ticket_ ticket)) w) as [o w1]. simpl in *. subst o.
  rewrite Cmp_le, Cmp_lt.
  assert (E0 : (maxFloat <=? 0) = false) by (apply Z.leb_gt; lia).
  assert (E1 : (maxFloat <? FaceValue (ticket_ ticket)) = false) by (apply Z.ltb_ge; lia).
  rewrite E0, E1. unfold bind at 1. rewrite SubFloat_eq. simpl snd.
  unfold with_defer. now rewrite brokerSteps_eq.
Qed.

(** ** The scenarios of the specification, run on the model *)

(** Happy redemption: max float 100, face value 30, the broker succeeds. *)
Example happy_redemption :
  let w := freshWorld 1%N 60 [] in
  let t := stubTicket 7%N 30 in
  let w' := snd (redeemWinningTicket goodEnv t w) in
  fst (redeemWinningTicket goodEnv t w) = Val None
  /\ trace w' = [EvMaxFloat 7%N; EvCache 7%N; EvSubFloat 7%N 30;
                 EvRedeemWinningTicket t; EvCheckTx 77; EvValueRedeemed 7%N 30;
                 EvAddFloat 7%N 30]
  /\ fst (MaxFloat goodEnv 7%N w') = Val (Ok 100)
  /\ tickets w' = [].
Proof. vm_compute. repeat split. Qed.

(** Insufficient float: max float 100, face value 130; the ticket goes back
    to the queue and the float is unchanged. *)
Example insufficient_float_retry :
  let w := freshWorld 1%N 60 [] in
  let t := stubTicket 7%N 130 in
  let w' := snd (redeemWinningTicket goodEnv t w) in
  fst (redeemWinningTicket goodEnv t w)
  = Val (Some (ErrInsufficientMaxFloat 7%N 130 100))
  /\ trace w' = [EvMaxFloat 7%N; EvCache 7%N; EvQueueTicket t]
  /\ fst (MaxFloat goodEnv 7%N w') = Val (Ok 100)
  /\ tickets w' = [t].
Proof. vm_compute. repeat split. Qed.

(** An empty pool: the reserve allocation is 0 and the ticket is re-queued. *)
Example empty_pool_requeues :
  let env := stubEnv (Ok (stubSenderInfo 900 100 0)) (Some 0, None) 5 0 None (Ok 77) None in
  let w := freshWorld 1%N 60 [] in
  let t := stubTicket 7%N 30 in
  fst (redeemWinningTicket env t w) = Val (Some ErrZeroMaxFloat)
  /\ tickets (snd (redeemWinningTicket env t w)) = [t].
Proof. vm_compute. repeat split. Qed.

(** A failing broker: the error is returned, the ticket is not re-queued and
    the float is restored. *)
Example broker_failure :
  let env := stubEnv (Ok (stubSenderInfo 900 100 0)) (Some 0, None) 5 10 None
                     (Err (ErrExternal "broker error")) None in
  let w := freshWorld 1%N 60 [] in
  let t := stubTicket 7%N 30 in
  let w' := snd (redeemWinningTicket env t w) in
  fst (redeemWinningTicket env t w) = Val (Some (ErrExternal "broker error"))
  /\ trace w' = [EvMaxFloat 7%N; EvCache 7%N; EvSubFloat 7%N 30;
                 EvRedeemWinningTicket t; EvTicketRedemptionError 7%N;
                 EvAddFloat 7%N 30]
  /\ pendingOr0 w' 7%N = 0
  /\ tickets w' = [].
Proof. vm_compute. repeat split. Qed.

(** ** Max float *)

Lemma Div_euclidean (x y : Z) :
  y <> 0 ->
  x = y * BigInt.Div x y + x mod Z.abs y /\ 0 <= x mod Z.abs y < Z.abs y.
Proof.
  intros Hy. unfold BigInt.Div. split.
  - pose proof (Z.div_mod x (Z.abs y) ltac:(lia)) as Hdm.
    destruct (Z.lt_trichotomy y 0) as [L | [E | G]]; [| lia |].
    + rewrite Z.sgn_neg by lia. rewrite Z.abs_neq in * by lia. lia.
    + rewrite Z.sgn_pos by lia. rewrite Z.abs_eq in * by lia. lia.
  - apply Z.mod_pos_bound. lia.
Qed.

Lemma Div_quot (x y : Z) : 0 <= x -> y <> 0 -> BigInt.Div x y = x ÷ y.
Proof.
  intros Hx Hy. unfold BigInt.Div.
  destruct (Z.lt_trichotomy y 0) as [L | [E | G]]; [| lia |].
  - rewrite Z.sgn_neg, Z.abs_neq by lia.
    replace (x ÷ y) with (x ÷ - - y) by (f_equal; lia).
    rewrite Z.quot_opp_r by lia. rewrite Z.quot_div_nonneg by lia. lia.
  - rewrite Z.sgn_pos, Z.abs_eq by lia. rewrite Z.quot_div_nonneg by lia. lia.
Qed.

(** [MaxFloat] returns an error exactly when [GetSenderInfo] does, and then
    that error. *)
Lemma MaxFloat_error_iff (env : Env) (addr : Address) (w : World) (e : error) :
  fst (MaxFloat env addr w) = Val (Err e) <-> GetSenderInfo env addr = Err e.
Proof.
  rewrite MaxFloat_eq. simpl. unfold maxFloatOutcome.
  destruct (GetSenderInfo env addr) as [info | err].
  - split; [| discriminate].
    destruct (GetTranscoderPoolSize env =? 0); [discriminate |].
    destruct (fst (ClaimedReserve env addr (claimant (sm w)))); discriminate.
  - split; congruence.
Qed.

(** C1.  When [GetSenderInfo] succeeds, [ClaimedReserve] hands back a value
    (needed only for a non-empty pool) and the reserve is a non-negative
    amount, [reserveAlloc] returns
    [(FundsRemaining + ClaimedInCurrentRound) / poolSize - claimed] with
    truncating division, and 0 for an empty pool; [MaxFloat] returns that
    minus the sender's [pendingAmount] (0 for a sender cached by this very
    call). *)
Theorem MaxFloat_is_reserveAlloc_minus_pending
        (env : Env) (w : World) (addr : Address) (info : SenderInfo) (claimed : Z) :
  GetSenderInfo env addr = Ok info ->
  (GetTranscoderPoolSize env <> 0 ->
   fst (ClaimedReserve env addr (claimant (sm w))) = Some claimed) ->
  0 <= FundsRemaining (Reserve info) + ClaimedInCurrentRound (Reserve info) ->
  reserveAlloc env addr w
  = (Val (Ok (reserveAlloc_spec info (GetTranscoderPoolSize env) claimed)), w)
  /\ fst (MaxFloat env addr w)
     = Val (Ok (reserveAlloc_spec info (GetTranscoderPoolSize env) claimed
                - pendingOr0 w addr))
  /\ (GetTranscoderPoolSize env = 0 ->
      reserveAlloc_spec info (GetTranscoderPoolSize env) claimed = 0).
Proof.
  intros Hinfo Hclaimed Hres. split; [| split].
  - unfold reserveAlloc, reserveAlloc_spec. rewrite Hinfo.
    unfold bind, getClaimant.
    destruct (ClaimedReserve env addr (claimant (sm w))) as [c cerr] eqn:Ec.
    simpl in Hclaimed. rewrite Cmp_eq.
    destruct (GetTranscoderPoolSize env =? 0) eqn:Ep; [reflexivity |].
    apply Z.eqb_neq in Ep. rewrite (Hclaimed Ep).
    now rewrite Div_quot.
  - rewrite MaxFloat_eq. simpl. unfold maxFloatOutcome, reserveAlloc_spec.
    rewrite Hinfo.
    destruct (GetTranscoderPoolSize env =? 0) eqn:Ep; [reflexivity |].
    apply Z.eqb_neq in Ep. rewrite (Hclaimed Ep).
    now rewrite Div_quot.
  - intros Hp. unfold reserveAlloc_spec. now rewrite Hp.
Qed.

Lemma MaxFloat_is_reserveAlloc_minus_pending_witness :
  fst (MaxFloat goodEnv 7%N (freshWorld 1%N 60 [])) = Val (Ok 100).
Proof.
  apply (MaxFloat_is_reserveAlloc_minus_pending
           goodEnv (freshWorld 1%N 60 []) 7%N (stubSenderInfo 900 100 0) 0).
  - reflexivity.
  - intros _. reflexivity.
  - simpl. lia.
Defined.

(** C7.  The error of [ClaimedReserve] never reaches the caller of
    [MaxFloat]: with an empty pool the call returns 0 and no error; with a
    pool of 10 it returns a float computed from the value that came with the
    error, or panics on a nil value. *)
Theorem MaxFloat_drops_ClaimedReserve_error :
  let e := ErrExternal "ClaimedReserve error" in
  let info := Ok (stubSenderInfo 900 100 0) in
  let w := freshWorld 1%N 60 [] in
  fst (MaxFloat (stubEnv info (None, Some e) 5 0 None (Ok 77) None) 7%N w) = Val (Ok 0)
  /\ fst (MaxFloat (stubEnv info (Some 0, Some e) 5 10 None (Ok 77) None) 7%N w)
     = Val (Ok 100)
  /\ fst (MaxFloat (stubEnv info (None, Some e) 5 10 None (Ok 77) None) 7%N w) = Panic.
Proof.
  cbv zeta. rewrite !MaxFloat_eq. repeat split.
Qed.

(** ** ValidateSender *)

Lemma Int64_in_range (x : Z) : - 2 ^ 63 <= x < 2 ^ 63 -> BigInt.Int64 x = x.
Proof.
  intros Hx. unfold BigInt.Int64, BigInt.wrap64.
  assert (H64 : (2 ^ 64 = 2 * 2 ^ 63)) by reflexivity.
  destruct (x <? 0) eqn:E.
  - apply Z.ltb_lt in E. rewrite Z.abs_neq by lia.
    rewrite (Z.mod_small (- x)) by lia.
    destruct (Z.eq_dec x (- 2 ^ 63)) as [-> | Hne]; [reflexivity |].
    rewrite (Z.mod_small (- x + 2 ^ 63)) by lia.
    rewrite Z.mod_small by lia. lia.
  - apply Z.ltb_ge in E. rewrite Z.abs_eq by lia.
    rewrite (Z.mod_small x) by lia.
    rewrite Z.mod_small by lia. lia.
Qed.

Lemma ValidateSender_eq (env : Env) (addr : Address) (w : World) :
  ValidateSender env addr w =
    (Val match GetSenderInfo env addr with
         | Err err => Some (ErrSenderInfo addr err)
         | Ok info =>
             if negb (BigInt.Int64 (WithdrawRound info) =? 0)
                && (WithdrawRound info <=? LastInitializedRound env + 1)
             then Some (ErrSenderUnlockSoon addr)
             else None
         end, w).
Proof.
  unfold ValidateSender.
  destruct (GetSenderInfo env addr) as [info | err]; [| reflexivity].
  rewrite Cmp_gt, <- Z.leb_antisym.
  destruct (negb (BigInt.Int64 (WithdrawRound info) =? 0)
            && (WithdrawRound info <=? LastInitializedRound env + 1)); reflexivity.
Qed.

(** For a withdraw round that fits in an [int64], [ValidateSender] fails
    exactly when the round is set and at most [lastInitializedRound + 1]. *)
Lemma ValidateSender_int64 (env : Env) (addr : Address) (w : World) (info : SenderInfo) :
  GetSenderInfo env addr = Ok info ->
  - 2 ^ 63 <= WithdrawRound info < 2 ^ 63 ->
  (exists e, fst (ValidateSender env addr w) = Val (Some e))
  <-> unlocksSoon_spec (WithdrawRound info) (LastInitializedRound env).
Proof.
  intros Hinfo Hr. rewrite ValidateSender_eq, Hinfo. simpl.
  rewrite Int64_in_range by exact Hr. unfold unlocksSoon_spec.
  destruct (WithdrawRound info =? 0) eqn:E0; simpl.
  - apply Z.eqb_eq in E0. split; [intros [e He]; discriminate | lia].
  - apply Z.eqb_neq in E0.
    destruct (WithdrawRound info <=? LastInitializedRound env + 1) eqn:E1.
    + apply Z.leb_le in E1. split; [tauto | eauto].
    + apply Z.leb_gt in E1. split; [intros [e He]; discriminate | lia].
Qed.

Lemma wrap64_low (z : Z) : - 2 ^ 63 <= z < 2 ^ 63 -> BigInt.wrap64 z = z.
Proof.
  intros Hz. unfold BigInt.wrap64.
  assert (H64 : 2 ^ 64 = 2 * 2 ^ 63) by reflexivity.
  rewrite Z.mod_small by lia. lia.
Qed.

Lemma wrap64_high (z : Z) : 2 ^ 63 <= z < 2 ^ 64 + 2 ^ 63 -> BigInt.wrap64 z = z - 2 ^ 64.
Proof.
  intros Hz. unfold BigInt.wrap64.
  assert (H64 : 2 ^ 64 = 2 * 2 ^ 63) by reflexivity.
  replace (z + 2 ^ 63) with (z + 2 ^ 63 - 2 ^ 64 + 1 * 2 ^ 64) by lia.
  rewrite Z.mod_add by lia. rewrite Z.mod_small by lia. lia.
Qed.

(** [Int64()] is zero only for zero, as long as the value is below 2^64 in
    absolute value. *)
Lemma Int64_zero_iff (x : Z) : - 2 ^ 64 < x < 2 ^ 64 -> (BigInt.Int64 x = 0 <-> x = 0).
Proof.
  intros Hx. unfold BigInt.Int64.
  assert (H64 : 2 ^ 64 = 2 * 2 ^ 63) by reflexivity.
  assert (Hp : 0 < 2 ^ 63) by reflexivity.
  rewrite (Z.mod_small (Z.abs x)) by lia.
  destruct (x <? 0) eqn:E.
  - apply Z.ltb_lt in E. rewrite Z.abs_neq by lia.
    destruct (Z_lt_ge_dec (- x) (2 ^ 63)) as [Hs | Hb].
    + rewrite (wrap64_low (- x)) by lia. rewrite wrap64_low by lia. lia.
    + rewrite (wrap64_high (- x)) by lia.
      destruct (Z.eq_dec (- x) (2 ^ 63)) as [He | Hne].
      * rewrite He. split; [discriminate | lia].
      * rewrite wrap64_low by lia. lia.
  - apply Z.ltb_ge in E. rewrite Z.abs_eq by lia.
    destruct (Z_lt_ge_dec x (2 ^ 63)) as [Hs | Hb].
    + rewrite wrap64_low by lia. tauto.
    + rewrite wrap64_high by lia. lia.
Qed.

(** The conversion keeps the low 64 bits only. *)
Example Int64_keeps_low_bits : BigInt.Int64 (2 ^ 64 + 5) = 5 /\ BigInt.Int64 (2 ^ 64) = 0.
Proof. split; reflexivity. Qed.

(** C8.  For a withdraw round below 2^64 in absolute value (a round number;
    [Int64()] keeps the low 64 bits), and given that [GetSenderInfo]
    succeeds, [ValidateSender] returns an error if and only if the round is
    non-zero and at most [lastInitializedRound + 1]; in particular a round
    of 0 always succeeds, and so does any round strictly greater than
    [lastInitializedRound + 1]. *)
Theorem ValidateSender_error_iff_unlocks_soon
        (env : Env) (addr : Address) (w : World) (info : SenderInfo) :
  GetSenderInfo env addr = Ok info ->
  - 2 ^ 64 < WithdrawRound info < 2 ^ 64 ->
  ((exists e, fst (ValidateSender env addr w) = Val (Some e))
   <-> unlocksSoon_spec (WithdrawRound info) (LastInitializedRound env))
  /\ (WithdrawRound info = 0 -> fst (ValidateSender env addr w) = Val None)
  /\ (LastInitializedRound env + 1 < WithdrawRound info ->
      fst (ValidateSender env addr w) = Val None).
Proof.
  intros Hinfo Hr. rewrite ValidateSender_eq, Hinfo. simpl.
  pose proof (Int64_zero_iff (WithdrawRound info) Hr) as Hz.
  unfold unlocksSoon_spec.
  destruct (BigInt.Int64 (WithdrawRound info) =? 0) eqn:E0; simpl.
  - apply Z.eqb_eq in E0. apply Hz in E0.
    split; [| split; reflexivity].
    split; [intros [e He]; discriminate | lia].
  - apply Z.eqb_neq in E0.
    assert (Hnz : WithdrawRound info <> 0) by (intros H0; apply E0, Hz, H0).
    destruct (WithdrawRound info <=? LastInitializedRound env + 1) eqn:E1.
    + apply Z.leb_le in E1. split; [| split; lia].
      split; [tauto | eauto].
    + apply Z.leb_gt in E1. split; [| split; reflexivity].
      split; [intros [e He]; discriminate | lia].
Qed.

Lemma ValidateSender_error_iff_unlocks_soon_witness :
  (exists e,
      fst (ValidateSender
             (stubEnv (Ok (stubSenderInfo 900 100 (2 ^ 63))) (Some 0, None) (2 ^ 63) 10 None
                      (Ok 77) None)
             7%N (freshWorld 1%N 60 []))
      = Val (Some e))
  <-> unlocksSoon_spec (2 ^ 63) (2 ^ 63).
Proof.
  apply (ValidateSender_error_iff_unlocks_soon
           (stubEnv (Ok (stubSenderInfo 900 100 (2 ^ 63))) (Some 0, None) (2 ^ 63) 10 None
                    (Ok 77) None)
           7%N (freshWorld 1%N 60 []) (stubSenderInfo 900 100 (2 ^ 63))).
  - reflexivity.
  - simpl. lia.
Defined.

(** ** AddFloat, SubFloat and the sign of the pending amount *)

Lemma AddFloat_result (env : Env) (addr : Address) (amount : Z) (w : World) :
  fst (AddFloat env addr amount w) =
    Val (if pendingOr0 w addr <? amount then Some ErrInsufficientPending else None).
Proof.
  rewrite AddFloat_eq. cbv zeta.
  now destruct (pendingOr0 w addr <? amount).
Qed.

Lemma AddFloat_pending (env : Env) (addr : Address) (amount : Z) (w : World) (a : Address) :
  pendingOr0 (snd (AddFloat env addr amount w)) a =
    if decide (a = addr)
    then (if pendingOr0 w addr <? amount then pendingOr0 w addr
          else pendingOr0 w addr - amount)
    else pendingOr0 w a.
Proof.
  rewrite AddFloat_eq. cbv zeta.
  destruct (pendingOr0 w addr <? amount); simpl.
  - rewrite pendingOr0_touched, pendingOr0_logged. now destruct (decide (a = addr)) as [-> |].
  - rewrite pendingOr0_pendingSet, pendingOr0_logged. reflexivity.
Qed.

Lemma AddFloat_tickets (env : Env) (addr : Address) (amount : Z) (w : World) :
  tickets (snd (AddFloat env addr amount w)) = tickets w.
Proof.
  rewrite AddFloat_eq. cbv zeta.
  destruct (pendingOr0 w addr <? amount); simpl.
  - now rewrite tickets_touched.
  - now rewrite tickets_pendingSet, tickets_touched.
Qed.

Lemma SubFloat_pending (env : Env) (addr : Address) (amount : Z) (w : World) (a : Address) :
  pendingOr0 (snd (SubFloat env addr amount w)) a =
    if decide (a = addr) then pendingOr0 w addr + amount else pendingOr0 w a.
Proof.
  rewrite SubFloat_eq. simpl.
  rewrite pendingOr0_pendingSet, pendingOr0_logged. reflexivity.
Qed.

Lemma SubFloat_tickets (env : Env) (addr : Address) (amount : Z) (w : World) :
  tickets (snd (SubFloat env addr amount w)) = tickets w.
Proof.
  rewrite SubFloat_eq. simpl. now rewrite tickets_pendingSet, tickets_touched.
Qed.

Lemma QueueTicket_pending (env : Env) (ticket : SignedTicket) (w : World) (a : Address) :
  pendingOr0 (snd (QueueTicket env ticket w)) a = pendingOr0 w a.
Proof.
  rewrite QueueTicket_eq. cbv zeta.
  destruct (StoreWinningTicket env ticket); simpl;
    now rewrite ?pendingOr0_stored, pendingOr0_touched, pendingOr0_logged.
Qed.

Lemma MaxFloat_pending (env : Env) (addr : Address) (w : World) (a : Address) :
  pendingOr0 (snd (MaxFloat env addr w)) a = pendingOr0 w a.
Proof.
  rewrite MaxFloat_eq. simpl. now rewrite pendingOr0_touched, pendingOr0_logged.
Qed.

Lemma MaxFloat_tickets (env : Env) (addr : Address) (w : World) :
  tickets (snd (MaxFloat env addr w)) = tickets w.
Proof. rewrite MaxFloat_eq. simpl. now rewrite tickets_touched. Qed.

(** C4.  [AddFloat] returns an error exactly when [amount] exceeds the
    sender's [pendingAmount] (0 for a sender not cached before), and the
    error is the insufficient-pending one; on that error the float state is
    not modified: no sender's [pendingAmount] changes and the ticket store
    is untouched (the call has run [ensureCache] like every public call, so
    the sender is cached and its [lastAccess] refreshed); on success the
    sender's [pendingAmount] has decreased by exactly [amount] and no other
    has changed. *)
Theorem AddFloat_error_iff_insufficient
        (env : Env) (addr : Address) (amount : Z) (w : World) :
  ((exists e, fst (AddFloat env addr amount w) = Val (Some e))
   <-> amount > pendingOr0 w addr)
  /\ (amount > pendingOr0 w addr ->
      fst (AddFloat env addr amount w) = Val (Some ErrInsufficientPending)
      /\ (forall a, pendingOr0 (snd (AddFloat env addr amount w)) a = pendingOr0 w a)
      /\ tickets (snd (AddFloat env addr amount w)) = tickets w
      /\ exists rs, senders (sm (snd (AddFloat env addr amount w))) !! addr = Some rs
                    /\ lastAccess rs = unixNow env)
  /\ (amount <= pendingOr0 w addr ->
      fst (AddFloat env addr amount w) = Val None
      /\ pendingOr0 (snd (AddFloat env addr amount w)) addr = pendingOr0 w addr - amount
      /\ forall a, a <> addr ->
                   pendingOr0 (snd (AddFloat env addr amount w)) a = pendingOr0 w a).
Proof.
  split; [| split].
  - rewrite AddFloat_result.
    destruct (pendingOr0 w addr <? amount) eqn:E.
    + apply Z.ltb_lt in E. split; [lia | eauto].
    + apply Z.ltb_ge in E. split; [intros [e He]; discriminate | lia].
  - intros Hgt.
    assert (E : (pendingOr0 w addr <? amount) = true) by (apply Z.ltb_lt; lia).
    split; [| split; [| split]].
    + now rewrite AddFloat_result, E.
    + intros a. rewrite AddFloat_pending, E. now destruct (decide (a = addr)) as [-> |].
    + apply AddFloat_tickets.
    + rewrite AddFloat_eq. cbv zeta. rewrite E. simpl.
      rewrite touched_lookup. eexists. split; reflexivity.
  - intros Hle.
    assert (E : (pendingOr0 w addr <? amount) = false) by (apply Z.ltb_ge; lia).
    split; [| split].
    + now rewrite AddFloat_result, E.
    + rewrite AddFloat_pending, E. now destruct (decide (addr = addr)).
    + intros a Hne. rewrite AddFloat_pending. now destruct (decide (a = addr)).
Qed.

Lemma AddFloat_error_iff_insufficient_witness :
  fst (AddFloat goodEnv 7%N 5 (freshWorld 1%N 60 [])) = Val (Some ErrInsufficientPending)
  /\ fst (AddFloat goodEnv 7%N 0 (freshWorld 1%N 60 [])) = Val None.
Proof.
  split.
  - apply (AddFloat_error_iff_insufficient goodEnv 7%N 5 (freshWorld 1%N 60 [])).
    change (pendingOr0 (freshWorld 1%N 60 []) 7%N) with 0. lia.
  - apply (AddFloat_error_iff_insufficient goodEnv 7%N 0 (freshWorld 1%N 60 [])).
    change (pendingOr0 (freshWorld 1%N 60 []) 7%N) with 0. lia.
Defined.

(** The invariant is kept by each of the three calls. *)
Lemma run_call_nonneg (c : Env * call) (w : World) :
  call_nonneg c -> pending_nonneg w ->
  fst (run_call c w) = Val tt /\ pending_nonneg (snd (run_call c w)).
Proof.
  destruct c as [env [addr amount | addr amount | ticket]]; unfold call_nonneg; simpl;
    intros Hc Hw; rewrite pending_nonneg_pendingOr0 in *.
  - unfold bind, ret.
    pose proof (AddFloat_result env addr amount w) as Hr.
    pose proof (AddFloat_pending env addr amount w) as Hp.
    destruct (AddFloat env addr amount w) as [o w']. simpl in *. subst o.
    split; [reflexivity |]. intros a. rewrite Hp.
    pose proof (Hw a). pose proof (Hw addr).
    destruct (decide (a = addr)); [| assumption].
    destruct (pendingOr0 w addr <? amount) eqn:E; [assumption |].
    apply Z.ltb_ge in E. lia.
  - split; [now rewrite SubFloat_eq |]. intros a. rewrite SubFloat_pending.
    pose proof (Hw a). pose proof (Hw addr).
    destruct (decide (a = addr)); lia.
  - unfold bind, ret. split.
    + rewrite QueueTicket_eq. cbv zeta. now destruct (StoreWinningTicket env ticket).
    + intros a. pose proof (QueueTicket_pending env ticket w a) as Hp.
      destruct (QueueTicket env ticket w) as [[o |] w']; simpl in *; rewrite Hp; apply Hw.
Qed.

Lemma run_calls_nonneg (cs : list (Env * call)) (w : World) :
  Forall call_nonneg cs -> pending_nonneg w ->
  calls_return cs w /\ pending_nonneg (run_calls cs w).
Proof.
  revert w. induction cs as [| c cs IH]; intros w Hcs Hw; simpl.
  - split; [exact I | exact Hw].
  - inversion Hcs as [| c' cs' Hc Hcs']; subst.
    destruct (run_call_nonneg c w Hc Hw) as [Hret Hnn].
    destruct (IH _ Hcs' Hnn) as [Hrets Hfin].
    repeat split; assumption.
Qed.

Lemma freshWorld_nonneg (cl : Address) (t : Z) (store : list SignedTicket) :
  pending_nonneg (freshWorld cl t store).
Proof. intros a rs H. simpl in H. now rewrite lookup_empty in H. Qed.

(** C3.  From a fresh monitor, along every finite sequence of [AddFloat],
    [SubFloat] and [QueueTicket] calls with non-negative amounts (whatever
    the collaborators answer at each call), after every call -- that is,
    after every prefix of the sequence -- no call has panicked and every
    cached sender has [pendingAmount >= 0]. *)
Theorem pendingAmount_never_negative
        (cl : Address) (t : Z) (store : list SignedTicket)
        (cs : list (Env * call)) (n : nat) :
  Forall call_nonneg cs ->
  calls_return (take n cs) (freshWorld cl t store)
  /\ forall (s : Address) (rs : remoteSender),
      senders (sm (run_calls (take n cs) (freshWorld cl t store))) !! s = Some rs ->
      0 <= pendingAmount rs.
Proof.
  intros Hcs. apply run_calls_nonneg.
  - now apply Forall_take.
  - apply freshWorld_nonneg.
Qed.

Lemma pendingAmount_never_negative_witness :
  calls_return
    (take 3 [(goodEnv, CallSubFloat 7%N 30);
             (goodEnv, CallQueueTicket (stubTicket 7%N 30));
             (goodEnv, CallAddFloat 7%N 30)])
    (freshWorld 1%N 60 [])
  /\ forall (s : Address) (rs : remoteSender),
      senders (sm (run_calls
                     (take 3 [(goodEnv, CallSubFloat 7%N 30);
                              (goodEnv, CallQueueTicket (stubTicket 7%N 30));
                              (goodEnv, CallAddFloat 7%N 30)])
                     (freshWorld 1%N 60 []))) !! s = Some rs ->
      0 <= pendingAmount rs.
Proof.
  apply (pendingAmount_never_negative 1%N 60 []
           [(goodEnv, CallSubFloat 7%N 30);
            (goodEnv, CallQueueTicket (stubTicket 7%N 30));
            (goodEnv, CallAddFloat 7%N 30)] 3).
  apply List.Forall_cons; [unfold call_nonneg; simpl; lia |].
  apply List.Forall_cons; [exact I |].
  apply List.Forall_cons; [unfold call_nonneg; simpl; lia |].
  apply List.Forall_nil.
Defined.

(** ** Traces *)

Lemma cacheEvent_quiet (w : World) (addr : Address) : quiet (cacheEvent w addr).
Proof. unfold quiet, cacheEvent. now destruct (senders (sm w) !! addr). Qed.

Lemma trace_touched_logged (env : Env) (addr : Address) (e : Event) (w : World) :
  trace (touched env addr (logged e w)) = trace w ++ e :: cacheEvent w addr.
Proof.
  rewrite trace_touched. simpl. unfold cacheEvent.
  rewrite <- app_assoc. reflexivity.
Qed.

Lemma MaxFloat_trace (env : Env) (addr : Address) (w : World) :
  trace (snd (MaxFloat env addr w)) = trace w ++ EvMaxFloat addr :: cacheEvent w addr.
Proof. rewrite MaxFloat_eq. simpl. apply trace_touched_logged. Qed.

Lemma SubFloat_trace (env : Env) (addr : Address) (amount : Z) (w : World) :
  trace (snd (SubFloat env addr amount w)) =
    trace w ++ EvSubFloat addr amount :: cacheEvent w addr.
Proof.
  rewrite SubFloat_eq. simpl. rewrite trace_pendingSet. apply trace_touched_logged.
Qed.

Lemma AddFloat_trace (env : Env) (addr : Address) (amount : Z) (w : World) :
  trace (snd (AddFloat env addr amount w)) =
    trace w ++ EvAddFloat addr amount :: cacheEvent w addr.
Proof.
  rewrite AddFloat_eq. cbv zeta.
  destruct (pendingOr0 w addr <? amount); simpl;
    rewrite ?trace_pendingSet; apply trace_touched_logged.
Qed.

Lemma QueueTicket_trace (env : Env) (ticket : SignedTicket) (w : World) :
  trace (snd (QueueTicket env ticket w)) =
    trace w ++ EvQueueTicket ticket :: cacheEvent w (Sender (ticket_ ticket)).
Proof.
  rewrite QueueTicket_eq. cbv zeta.
  destruct (StoreWinningTicket env ticket); simpl; apply trace_touched_logged.
Qed.

Lemma QueueTicket_tickets (env : Env) (ticket : SignedTicket) (w : World) :
  tickets (snd (QueueTicket env ticket w)) =
    match StoreWinningTicket env ticket with
    | Some _ => tickets w
    | None => tickets w ++ [ticket]
    end.
Proof.
  rewrite QueueTicket_eq. cbv zeta.
  destruct (StoreWinningTicket env ticket); simpl; now rewrite tickets_touched.
Qed.

Lemma broker_filter_brokerEvents (env : Env) (ticket : SignedTicket) :
  List.filter is_broker_event (brokerEvents env ticket) <> [].
Proof. unfold brokerEvents. simpl. discriminate. Qed.

Lemma restoreFloat_eq (env : Env) (ticket : SignedTicket) (err : option error) (w : World) :
  restoreFloat env ticket err w =
    (Val (if pendingOr0 w (Sender (ticket_ ticket)) <? FaceValue (ticket_ ticket)
          then Some ErrInsufficientPending else err),
     snd (AddFloat env (Sender (ticket_ ticket)) (FaceValue (ticket_ ticket)) w)).
Proof.
  unfold restoreFloat, bind.
  pose proof (AddFloat_result env (Sender (ticket_ ticket)) (FaceValue (ticket_ ticket)) w)
    as Hr.
  destruct (AddFloat env (Sender (ticket_ ticket)) (FaceValue (ticket_ ticket)) w)
    as [o w']. simpl in *. subst o.
  now destruct (pendingOr0 w (Sender (ticket_ ticket)) <? FaceValue (ticket_ ticket)).
Qed.

(** The events of an attempt that got past the float checks. *)
Lemma redeem_attempts_trace (env : Env) (ticket : SignedTicket) (w : World) (maxFloat : Z) :
  fst (MaxFloat env (Sender (ticket_ ticket)) w) = Val (Ok maxFloat) ->
  0 < maxFloat ->
  FaceValue (ticket_ ticket) <= maxFloat ->
  exists c1 c2 c3,
    trace (snd (redeemWinningTicket env ticket w)) =
      trace w
      ++ (EvMaxFloat (Sender (ticket_ ticket)) :: c1)
      ++ (EvSubFloat (Sender (ticket_ ticket)) (FaceValue (ticket_ ticket)) :: c2)
      ++ brokerEvents env ticket
      ++ (EvAddFloat (Sender (ticket_ ticket)) (FaceValue (ticket_ ticket)) :: c3)
    /\ quiet c1 /\ quiet c2 /\ quiet c3.
Proof.
  intros H H0 H1. rewrite (redeem_attempts env ticket w maxFloat H H0 H1).
  rewrite restoreFloat_eq. simpl snd.
  rewrite AddFloat_trace. simpl trace at 1.
  rewrite SubFloat_trace, MaxFloat_trace.
  do 3 eexists. split.
  - rewrite <- !app_assoc. reflexivity.
  - repeat split; apply cacheEvent_quiet.
Qed.

(** ** The redemption attempt *)

(** C2.  When the float checks pass, so that [SubFloat(sender, faceValue)]
    runs, the attempt calls [SubFloat] and then [AddFloat], each exactly once
    and with the sender and face value of the ticket, whatever the broker
    answers ([brokerResult] is the error of [RedeemWinningTicket], else the
    one of [CheckTx], else nil).  From a state in which the sender's pending
    amount is non-negative, the attempt returns the broker's answer and
    leaves every sender's [pendingAmount] as it was. *)
Theorem redeem_restores_float
        (env : Env) (ticket : SignedTicket) (w : World) (maxFloat : Z) :
  fst (MaxFloat env (Sender (ticket_ ticket)) w) = Val (Ok maxFloat) ->
  0 < maxFloat ->
  FaceValue (ticket_ ticket) <= maxFloat ->
  exists evs,
    trace (snd (redeemWinningTicket env ticket w)) = trace w ++ evs
    /\ List.filter is_float_event evs =
         [EvSubFloat (Sender (ticket_ ticket)) (FaceValue (ticket_ ticket));
          EvAddFloat (Sender (ticket_ ticket)) (FaceValue (ticket_ ticket))]
    /\ (0 <= pendingOr0 w (Sender (ticket_ ticket)) ->
        fst (redeemWinningTicket env ticket w) = Val (brokerResult env ticket)
        /\ forall a, pendingOr0 (snd (redeemWinningTicket env ticket w)) a = pendingOr0 w a).
Proof.
  intros H H0 H1.
  destruct (redeem_attempts_trace env ticket w maxFloat H H0 H1)
    as (c1 & c2 & c3 & Htr & (Hc1 & _) & (Hc2 & _) & (Hc3 & _)).
  eexists. split; [exact Htr |]. split.
  - rewrite !List.filter_app. cbn [List.filter is_float_event].
    rewrite Hc1, Hc2, Hc3, float_filter_brokerEvents. reflexivity.
  - intros Hs.
    rewrite (redeem_attempts env ticket w maxFloat H H0 H1).
    rewrite restoreFloat_eq. simpl fst. simpl snd.
    set (s := Sender (ticket_ ticket)) in *.
    set (fv := FaceValue (ticket_ ticket)) in *.
    set (w2 := snd (SubFloat env s fv (snd (MaxFloat env s w)))).
    assert (Hp2 : forall a, pendingOr0 (appended (brokerEvents env ticket) w2) a
                            = if decide (a = s) then pendingOr0 w s + fv
                              else pendingOr0 w a).
    { intros a. change (pendingOr0 (appended (brokerEvents env ticket) w2) a)
        with (pendingOr0 w2 a).
      unfold w2. rewrite SubFloat_pending, !MaxFloat_pending. reflexivity. }
    assert (E : (pendingOr0 (appended (brokerEvents env ticket) w2) s <? fv) = false).
    { rewrite Hp2. destruct (decide (s = s)); [| congruence]. apply Z.ltb_ge. lia. }
    rewrite E. split; [reflexivity |].
    intros a. rewrite AddFloat_pending, E, !Hp2.
    destruct (decide (a = s)) as [-> |]; [| reflexivity].
    destruct (decide (s = s)); [lia | congruence].
Qed.

Lemma redeem_restores_float_witness :
  exists evs,
    trace (snd (redeemWinningTicket goodEnv (stubTicket 7%N 30) (freshWorld 1%N 60 [])))
    = [] ++ evs
    /\ List.filter is_float_event evs = [EvSubFloat 7%N 30; EvAddFloat 7%N 30]
    /\ (0 <= pendingOr0 (freshWorld 1%N 60 []) 7%N ->
        fst (redeemWinningTicket goodEnv (stubTicket 7%N 30) (freshWorld 1%N 60 []))
        = Val None
        /\ forall a,
            pendingOr0 (snd (redeemWinningTicket goodEnv (stubTicket 7%N 30)
                               (freshWorld 1%N 60 []))) a
            = pendingOr0 (freshWorld 1%N 60 []) a).
Proof.
  apply (redeem_restores_float goodEnv (stubTicket 7%N 30) (freshWorld 1%N 60 []) 100).
  - reflexivity.
  - lia.
  - simpl. lia.
Defined.

Lemma redeem_requeues_trace (env : Env) (ticket : SignedTicket) (w : World) (maxFloat : Z) :
  fst (MaxFloat env (Sender (ticket_ ticket)) w) = Val (Ok maxFloat) ->
  maxFloat <= 0 \/ maxFloat < FaceValue (ticket_ ticket) ->
  exists c1 c2,
    trace (snd (redeemWinningTicket env ticket w)) =
      trace w ++ (EvMaxFloat (Sender (ticket_ ticket)) :: c1) ++ (EvQueueTicket ticket :: c2)
    /\ quiet c1 /\ quiet c2.
Proof.
  intros H Hmf. rewrite (redeem_requeues env ticket w maxFloat H Hmf). simpl snd.
  rewrite QueueTicket_trace, MaxFloat_trace.
  do 2 eexists. split.
  - rewrite <- !app_assoc. reflexivity.
  - split; apply cacheEvent_quiet.
Qed.

Lemma floatCheckFails_inv (env : Env) (ticket : SignedTicket) (w : World) (maxFloat : Z) :
  fst (MaxFloat env (Sender (ticket_ ticket)) w) = Val (Ok maxFloat) ->
  floatCheckFails env ticket w ->
  maxFloat <= 0 \/ maxFloat < FaceValue (ticket_ ticket).
Proof.
  intros H (mf & Hmf & Hlt). rewrite H in Hmf. now injection Hmf as ->.
Qed.

(** C5.  The attempt calls [QueueTicket] -- once, with the ticket at hand --
    exactly when [MaxFloat] returned a float that is [<= 0] or below the face
    value, and never otherwise; in particular an attempt that reached the
    broker, whatever the broker answered, has not called [QueueTicket] and
    has left the ticket store alone.  When a float check fails, every
    sender's [pendingAmount] is as before and the store has gained the
    ticket unless the store refused it. *)
Theorem requeued_iff_float_check_fails (env : Env) (ticket : SignedTicket) (w : World) :
  exists evs,
    trace (snd (redeemWinningTicket env ticket w)) = trace w ++ evs
    /\ (List.filter is_queue_event evs = [EvQueueTicket ticket]
        <-> floatCheckFails env ticket w)
    /\ (List.filter is_queue_event evs = [EvQueueTicket ticket]
        \/ List.filter is_queue_event evs = [])
    /\ (List.filter is_broker_event evs <> [] ->
        List.filter is_queue_event evs = []
        /\ tickets (snd (redeemWinningTicket env ticket w)) = tickets w)
    /\ (floatCheckFails env ticket w ->
        (forall a, pendingOr0 (snd (redeemWinningTicket env ticket w)) a = pendingOr0 w a)
        /\ tickets (snd (redeemWinningTicket env ticket w)) =
             match StoreWinningTicket env ticket with
             | Some _ => tickets w
             | None => tickets w ++ [ticket]
             end).
Proof.
  set (s := Sender (ticket_ ticket)). set (fv := FaceValue (ticket_ ticket)).
  destruct (fst (MaxFloat env s w)) as [[mf | e] |] eqn:Hmax.
  - destruct (Z_le_gt_dec mf 0) as [Hle | Hgt];
      [| destruct (Z_lt_ge_dec mf fv) as [Hlt | Hge]].
    1, 2: assert (Hf : mf <= 0 \/ mf < fv) by (auto; lia);
      destruct (redeem_requeues_trace env ticket w mf Hmax Hf)
        as (c1 & c2 & Htr & (_ & Hc1 & Hb1) & (_ & Hc2 & Hb2));
      eexists; (split; [exact Htr |]);
      rewrite !List.filter_app; cbn [List.filter is_queue_event is_broker_event];
      rewrite Hc1, Hc2, Hb1, Hb2; simpl;
      (split; [| split; [| split]]);
      [ split; [intros _; exists mf; auto | reflexivity]
      | now left
      | congruence
      | intros _; rewrite (redeem_requeues env ticket w mf Hmax Hf); simpl snd; split;
        [ intros a; now rewrite QueueTicket_pending, MaxFloat_pending
        | now rewrite QueueTicket_tickets, MaxFloat_tickets ] ].
    assert (Hnf : ~ floatCheckFails env ticket w).
    { intros Hf. apply (floatCheckFails_inv env ticket w mf Hmax) in Hf. fold fv in Hf. lia. }
    destruct (redeem_attempts_trace env ticket w mf Hmax ltac:(lia) ltac:(fold fv; lia))
      as (c1 & c2 & c3 & Htr & (_ & Hc1 & _) & (_ & Hc2 & _) & (_ & Hc3 & _)).
    eexists. split; [exact Htr |].
    rewrite !List.filter_app. cbn [List.filter is_queue_event].
    rewrite Hc1, Hc2, Hc3, queue_filter_brokerEvents. simpl.
    split; [| split; [| split]].
    + split; [discriminate | tauto].
    + now right.
    + intros _. split; [reflexivity |].
      rewrite (redeem_attempts env ticket w mf Hmax ltac:(lia) ltac:(fold fv; lia)).
      rewrite restoreFloat_eq. simpl snd.
      rewrite AddFloat_tickets. cbn [appended tickets].
      now rewrite SubFloat_tickets, MaxFloat_tickets.
    + tauto.
  - assert (Hnf : ~ floatCheckFails env ticket w).
    { intros (mf & Hmf & _). fold s in Hmf. congruence. }
    exists (EvMaxFloat s :: cacheEvent w s).
    rewrite (redeem_MaxFloat_fails env ticket w e Hmax). simpl snd.
    destruct (cacheEvent_quiet w s) as (_ & Hq & Hb).
    split; [apply MaxFloat_trace |].
    cbn [List.filter is_queue_event is_broker_event]. rewrite Hq, Hb.
    split; [| split; [| split]].
    + split; [discriminate | tauto].
    + now right.
    + congruence.
    + tauto.
  - assert (Hnf : ~ floatCheckFails env ticket w).
    { intros (mf & Hmf & _). fold s in Hmf. congruence. }
    exists (EvMaxFloat s :: cacheEvent w s).
    rewrite (redeem_MaxFloat_panics env ticket w Hmax). simpl snd.
    destruct (cacheEvent_quiet w s) as (_ & Hq & Hb).
    split; [apply MaxFloat_trace |].
    cbn [List.filter is_queue_event is_broker_event]. rewrite Hq, Hb.
    split; [| split; [| split]].
    + split; [discriminate | tauto].
    + now right.
    + congruence.
    + tauto.
Qed.

Lemma MaxFloat_withStore (f : SignedTicket -> option error) (env : Env)
      (addr : Address) (w : World) :
  MaxFloat (withStore f env) addr w = MaxFloat env addr w.
Proof. rewrite !MaxFloat_eq. reflexivity. Qed.

(** C10.  When a float check sends the ticket back and the ticket store
    refuses it, the attempt still returns the float error and nothing else:
    the ticket is not in the store, and the returned error, the monitor and
    the trace of calls are the same as with any other store, one that
    accepts the ticket included. *)
Theorem requeue_error_is_discarded
        (env : Env) (ticket : SignedTicket) (w : World) (maxFloat : Z) (storeErr : error) :
  fst (MaxFloat env (Sender (ticket_ ticket)) w) = Val (Ok maxFloat) ->
  maxFloat <= 0 \/ maxFloat < FaceValue (ticket_ ticket) ->
  StoreWinningTicket env ticket = Some storeErr ->
  fst (QueueTicket env ticket (snd (MaxFloat env (Sender (ticket_ ticket)) w)))
  = Val (Some storeErr)
  /\ fst (redeemWinningTicket env ticket w) = Val (Some (floatError ticket maxFloat))
  /\ tickets (snd (redeemWinningTicket env ticket w)) = tickets w
  /\ forall f,
      fst (redeemWinningTicket (withStore f env) ticket w)
      = fst (redeemWinningTicket env ticket w)
      /\ sm (snd (redeemWinningTicket (withStore f env) ticket w))
         = sm (snd (redeemWinningTicket env ticket w))
      /\ trace (snd (redeemWinningTicket (withStore f env) ticket w))
         = trace (snd (redeemWinningTicket env ticket w)).
Proof.
  intros Hmax Hf Hstore.
  rewrite (redeem_requeues env ticket w maxFloat Hmax Hf). simpl fst. simpl snd.
  split; [| split; [| split]].
  - rewrite QueueTicket_eq. cbv zeta. now rewrite Hstore.
  - reflexivity.
  - now rewrite QueueTicket_tickets, Hstore, MaxFloat_tickets.
  - intros f.
    assert (Hmax' : fst (MaxFloat (withStore f env) (Sender (ticket_ ticket)) w)
                    = Val (Ok maxFloat)) by now rewrite MaxFloat_withStore.
    rewrite (redeem_requeues (withStore f env) ticket w maxFloat Hmax' Hf).
    simpl fst. simpl snd. rewrite MaxFloat_withStore, !QueueTicket_eq. cbv zeta.
    rewrite Hstore. simpl StoreWinningTicket.
    destruct (f ticket); repeat split.
Qed.

Lemma requeue_error_is_discarded_witness :
  fst (redeemWinningTicket
         (stubEnv (Ok (stubSenderInfo 900 100 0)) (Some 0, None) 5 10
                  (Some (ErrExternal "store error")) (Ok 77) None)
         (stubTicket 7%N 130) (freshWorld 1%N 60 []))
  = Val (Some (ErrInsufficientMaxFloat 7%N 130 100)).
Proof.
  apply (requeue_error_is_discarded
           (stubEnv (Ok (stubSenderInfo 900 100 0)) (Some 0, None) 5 10
                    (Some (ErrExternal "store error")) (Ok 77) None)
           (stubTicket 7%N 130) (freshWorld 1%N 60 []) 100 (ErrExternal "store error")).
  - reflexivity.
  - right. simpl. lia.
  - reflexivity.
Defined.

(** ** TransactionManager *)

Module TransactionManagerFacts.

Import TransactionManager.

Lemma TestApplyPriceBump_passes : TestApplyPriceBump applyPriceBump = true.
Proof. reflexivity. Qed.

(** C9.  For non-negative [x] and [p], [applyPriceBump x p] is the floor of
    [x * (100 + p) / 100]: it is the largest integer [r] with
    [100 * r <= x * (100 + p)]; hence [applyPriceBump x 0 = x], and the
    result does not decrease when [p] grows. *)
Theorem applyPriceBump_floor (x p : Z) :
  0 <= x -> 0 <= p ->
  applyPriceBump x p = x * (100 + p) / 100
  /\ 100 * applyPriceBump x p <= x * (100 + p) < 100 * applyPriceBump x p + 100
  /\ applyPriceBump x 0 = x
  /\ forall q, p <= q -> applyPriceBump x p <= applyPriceBump x q.
Proof.
  intros Hx Hp. unfold applyPriceBump.
  assert (Hfloor : forall q, 0 <= q -> (x * (100 + q)) ÷ 100 = x * (100 + q) / 100).
  { intros q Hq. apply Z.quot_div_nonneg; nia. }
  split; [| split; [| split]].
  - now apply Hfloor.
  - rewrite Hfloor by exact Hp.
    pose proof (Z.div_mod (x * (100 + p)) 100 ltac:(lia)) as Hdm.
    pose proof (Z.mod_pos_bound (x * (100 + p)) 100 ltac:(lia)) as Hm.
    lia.
  - replace (x * (100 + 0)) with (x * 100) by lia. apply Z.quot_mul. lia.
  - intros q Hq. rewrite !Hfloor by lia.
    apply Z.div_le_mono; nia.
Qed.

Lemma applyPriceBump_floor_witness : applyPriceBump 50 11 = 50 * (100 + 11) / 100.
Proof. apply (applyPriceBump_floor 50 11); lia. Defined.

Lemma withGasFeeCap_same (tx : Tx) : withGasFeeCap (GasFeeCap tx) tx = tx.
Proof. now destruct tx. Qed.

Lemma TestNewAdjustedTx_passes (addr : Address) (data : list Z) :
  TestNewAdjustedTx addr data newAdjustedTx = true.
Proof.
  unfold TestNewAdjustedTx, assertTxFieldsUnchanged, eqb_list, Hash. simpl.
  rewrite N.eqb_refl. simpl.
  case_bool_decide; [reflexivity | congruence].
Qed.

(** Whatever passes [TestNewAdjustedTx] changes a transaction whose fee cap
    (1000) is below the maximal gas price (1100). *)
Lemma TestNewAdjustedTx_forces_change (addr : Address) (data : list Z)
      (impl : option Z -> Tx -> Tx) :
  TestNewAdjustedTx addr data impl = true ->
  GasFeeCap (impl (Some 1100) (newStubDynamicFeeTx addr data 1000 100)) = 1100
  /\ impl (Some 1100) (newStubDynamicFeeTx addr data 1000 100)
     <> newStubDynamicFeeTx addr data 1000 100.
Proof.
  unfold TestNewAdjustedTx. cbv zeta. intros H.
  repeat (apply andb_prop in H; destruct H as [H ?]).
  assert (Hcap : GasFeeCap (impl (Some 1100) (newStubDynamicFeeTx addr data 1000 100)) = 1100).
  { symmetry. now apply Z.eqb_eq. }
  split; [exact Hcap |].
  intros Heq. rewrite Heq in Hcap. discriminate.
Qed.

(** C6, as the test has it.  [newAdjustedTx] returns the transaction itself
    when [maxGasPrice] is nil; when [maxGasPrice] is set it returns a copy
    whose [gasFeeCap] is [maxGasPrice] and whose other fields are unchanged,
    which is the transaction itself exactly when [maxGasPrice] equals its
    [gasFeeCap]; this passes [TestNewAdjustedTx]. *)
Theorem newAdjustedTx_caps_to_max (tx : Tx) :
  newAdjustedTx None tx = tx
  /\ (forall m,
        GasFeeCap (newAdjustedTx (Some m) tx) = m
        /\ Nonce (newAdjustedTx (Some m) tx) = Nonce tx
        /\ GasTipCap (newAdjustedTx (Some m) tx) = GasTipCap tx
        /\ Gas (newAdjustedTx (Some m) tx) = Gas tx
        /\ Value (newAdjustedTx (Some m) tx) = Value tx
        /\ Data (newAdjustedTx (Some m) tx) = Data tx
        /\ To (newAdjustedTx (Some m) tx) = To tx
        /\ (newAdjustedTx (Some m) tx = tx <-> m = GasFeeCap tx))
  /\ (forall addr data, TestNewAdjustedTx addr data newAdjustedTx = true).
Proof.
  split; [reflexivity |]. split.
  - intros m. repeat (split; [reflexivity |]). split.
    + intros H. apply (f_equal GasFeeCap) in H. exact H.
    + intros ->. apply withGasFeeCap_same.
  - apply TestNewAdjustedTx_passes.
Qed.

(** C6, as stated, fails on the transaction of [TestNewAdjustedTx]: its
    [gasFeeCap] 1000 is not above [maxGasPrice] 1100, and yet the adjusted
    transaction has [gasFeeCap] 1100 and differs from it.  The function that
    follows the claim does not pass the test. *)
Lemma newAdjustedTx_changes_tx_below_max :
  let tx1 := newStubDynamicFeeTx 9%N [] 1000 100 in
  1100 >= GasFeeCap tx1
  /\ GasFeeCap (newAdjustedTx (Some 1100) tx1) = 1100
  /\ newAdjustedTx (Some 1100) tx1 <> tx1
  /\ newAdjustedTx_spec (Some 1100) tx1 = tx1
  /\ TestNewAdjustedTx 9%N [] newAdjustedTx_spec = false
  /\ TestNewAdjustedTx 9%N [] newAdjustedTx = true.
Proof.
  cbv zeta. split; [simpl; lia |]. split; [reflexivity |]. split; [discriminate |].
  split; [reflexivity |]. split; [reflexivity | apply TestNewAdjustedTx_passes].
Qed.

End TransactionManagerFacts.

(** * Further properties of the monitor *)

(** ** Lookups after the public calls *)

Lemma pendingSet_lookup_ne (addr a : Address) (v : Z) (w : World) :
  a <> addr -> senders (sm (pendingSet addr v w)) !! a = senders (sm w) !! a.
Proof.
  intros Hne. unfold pendingSet.
  destruct (senders (sm w) !! addr); [| reflexivity].
  simpl. now rewrite lookup_insert_ne by congruence.
Qed.

Lemma pendingSet_touched_lookup (env : Env) (addr : Address) (v : Z) (w : World) :
  exists rs, senders (sm (pendingSet addr v (touched env addr w))) !! addr = Some rs
             /\ pendingAmount rs = v /\ lastAccess rs = unixNow env.
Proof.
  unfold pendingSet. rewrite touched_lookup. simpl. rewrite lookup_insert_eq.
  eexists. repeat split.
Qed.

Lemma claimant_pendingSet (addr : Address) (v : Z) (w : World) :
  claimant (sm (pendingSet addr v w)) = claimant (sm w).
Proof. unfold pendingSet. now destruct (senders (sm w) !! addr). Qed.

Lemma ttl_touched (env : Env) (addr : Address) (w : World) :
  ttl (sm (touched env addr w)) = ttl (sm w).
Proof. unfold touched. now destruct (senders (sm w) !! addr). Qed.

Lemma ttl_pendingSet (addr : Address) (v : Z) (w : World) :
  ttl (sm (pendingSet addr v w)) = ttl (sm w).
Proof. unfold pendingSet. now destruct (senders (sm w) !! addr). Qed.

Lemma run_call_snd (env : Env) (c : call) (w : World) :
  snd (run_call (env, c) w) =
    match c with
    | CallAddFloat addr amount => snd (AddFloat env addr amount w)
    | CallSubFloat addr amount => snd (SubFloat env addr amount w)
    | CallQueueTicket ticket => snd (QueueTicket env ticket w)
    end.
Proof.
  destruct c as [addr amount | addr amount | ticket]; simpl; [| reflexivity |].
  - unfold bind, ret. rewrite AddFloat_eq. cbv zeta.
    now destruct (pendingOr0 w addr <? amount).
  - unfold bind, ret. rewrite QueueTicket_eq. cbv zeta.
    now destruct (StoreWinningTicket env ticket).
Qed.

Lemma run_call_lookup_ne (env : Env) (c : call) (w : World) (a : Address) :
  a <> call_sender c ->
  senders (sm (snd (run_call (env, c) w))) !! a = senders (sm w) !! a.
Proof.
  intros Hne. rewrite run_call_snd.
  destruct c as [addr amount | addr amount | ticket]; simpl in Hne.
  - rewrite AddFloat_eq. cbv zeta. destruct (pendingOr0 w addr <? amount); simpl.
    + now rewrite touched_lookup_ne.
    + now rewrite pendingSet_lookup_ne, touched_lookup_ne.
  - rewrite SubFloat_eq. simpl. now rewrite pendingSet_lookup_ne, touched_lookup_ne.
  - rewrite QueueTicket_eq. cbv zeta. destruct (StoreWinningTicket env ticket); simpl;
      now rewrite touched_lookup_ne.
Qed.

Lemma run_call_lookup_self (env : Env) (c : call) (w : World) :
  exists rs, senders (sm (snd (run_call (env, c) w))) !! call_sender c = Some rs
             /\ lastAccess rs = unixNow env.
Proof.
  rewrite run_call_snd.
  destruct c as [addr amount | addr amount | ticket]; simpl.
  - rewrite AddFloat_eq. cbv zeta. destruct (pendingOr0 w addr <? amount); simpl.
    + rewrite touched_lookup. eexists. split; reflexivity.
    + destruct (pendingSet_touched_lookup env addr (pendingOr0 w addr - amount)
                  (logged (EvAddFloat addr amount) w)) as (rs & H & _ & Ht). eauto.
  - rewrite SubFloat_eq. simpl.
    destruct (pendingSet_touched_lookup env addr (pendingOr0 w addr + amount)
                (logged (EvSubFloat addr amount) w)) as (rs & H & _ & Ht). eauto.
  - rewrite QueueTicket_eq. cbv zeta. destruct (StoreWinningTicket env ticket); simpl;
      rewrite touched_lookup; eexists; split; reflexivity.
Qed.

Lemma run_call_ttl (env : Env) (c : call) (w : World) :
  ttl (sm (snd (run_call (env, c) w))) = ttl (sm w).
Proof.
  rewrite run_call_snd.
  destruct c as [addr amount | addr amount | ticket].
  - rewrite AddFloat_eq. cbv zeta. destruct (pendingOr0 w addr <? amount); simpl;
      now rewrite ?ttl_pendingSet, ttl_touched.
  - rewrite SubFloat_eq. simpl. now rewrite ttl_pendingSet, ttl_touched.
  - rewrite QueueTicket_eq. cbv zeta. destruct (StoreWinningTicket env ticket); simpl;
      now rewrite ttl_touched.
Qed.

Lemma claimant_SubFloat (env : Env) (addr : Address) (amount : Z) (w : World) :
  claimant (sm (snd (SubFloat env addr amount w))) = claimant (sm w).
Proof. rewrite SubFloat_eq. simpl. now rewrite claimant_pendingSet, claimant_touched. Qed.

Lemma claimant_AddFloat (env : Env) (addr : Address) (amount : Z) (w : World) :
  claimant (sm (snd (AddFloat env addr amount w))) = claimant (sm w).
Proof.
  rewrite AddFloat_eq. cbv zeta. destruct (pendingOr0 w addr <? amount); simpl;
    now rewrite ?claimant_pendingSet, claimant_touched.
Qed.

Lemma claimant_MaxFloat (env : Env) (addr : Address) (w : World) :
  claimant (sm (snd (MaxFloat env addr w))) = claimant (sm w).
Proof. rewrite MaxFloat_eq. simpl. now rewrite claimant_touched. Qed.

Lemma claimant_QueueTicket (env : Env) (ticket : SignedTicket) (w : World) :
  claimant (sm (snd (QueueTicket env ticket w))) = claimant (sm w).
Proof.
  rewrite QueueTicket_eq. cbv zeta. destruct (StoreWinningTicket env ticket); simpl;
    now rewrite claimant_touched.
Qed.

(** The max float moves by the opposite of the pending amount. *)
Lemma maxFloatOutcome_shift (env : Env) (cl addr : Address) (p p' m : Z) :
  maxFloatOutcome env cl addr p = Val (Ok m) ->
  maxFloatOutcome env cl addr p' = Val (Ok (m - (p' - p))).
Proof.
  unfold maxFloatOutcome.
  destruct (GetSenderInfo env addr) as [info | err]; [| discriminate].
  destruct (GetTranscoderPoolSize env =? 0).
  - intros [= <-]. f_equal. f_equal. lia.
  - destruct (fst (ClaimedReserve env addr cl)); [| discriminate].
    intros [= <-]. f_equal. f_equal. lia.
Qed.

Lemma MaxFloat_fst (env : Env) (addr : Address) (w : World) :
  fst (MaxFloat env addr w) = maxFloatOutcome env (claimant (sm w)) addr (pendingOr0 w addr).
Proof. now rewrite MaxFloat_eq. Qed.

(** ** Float accounting *)

(** X1.  [SubFloat] never fails and never panics, whatever the sign of the
    amount: it adds the amount to the sender's [pendingAmount] (starting from
    0 for a sender it caches), leaves every other sender's entry and the
    ticket store as they were, and so can drive a [pendingAmount] below
    zero when given a negative amount. *)
Theorem SubFloat_adds_to_pending (env : Env) (addr : Address) (amount : Z) (w : World) :
  fst (SubFloat env addr amount w) = Val tt
  /\ (exists rs, senders (sm (snd (SubFloat env addr amount w))) !! addr = Some rs
                 /\ pendingAmount rs = pendingOr0 w addr + amount)
  /\ (forall a, a <> addr ->
                senders (sm (snd (SubFloat env addr amount w))) !! a = senders (sm w) !! a)
  /\ tickets (snd (SubFloat env addr amount w)) = tickets w.
Proof.
  split; [now rewrite SubFloat_eq |]. split; [| split].
  - rewrite SubFloat_eq. simpl.
    destruct (pendingSet_touched_lookup env addr (pendingOr0 w addr + amount)
                (logged (EvSubFloat addr amount) w)) as (rs & H & Hp & _). eauto.
  - intros a Hne. rewrite SubFloat_eq. simpl.
    now rewrite pendingSet_lookup_ne, touched_lookup_ne.
  - apply SubFloat_tickets.
Qed.

(** X2.  [SubFloat] followed by [AddFloat] of the same amount for the same
    sender is a round trip on the pending amounts, provided the sender's
    [pendingAmount] was not negative: the [AddFloat] succeeds and every
    sender's [pendingAmount] is back to its value (the collaborators may
    differ between the two calls). *)
Theorem SubFloat_then_AddFloat (env env' : Env) (addr : Address) (amount : Z) (w : World) :
  0 <= pendingOr0 w addr ->
  fst (AddFloat env' addr amount (snd (SubFloat env addr amount w))) = Val None
  /\ forall a,
      pendingOr0 (snd (AddFloat env' addr amount (snd (SubFloat env addr amount w)))) a
      = pendingOr0 w a.
Proof.
  intros Hp.
  assert (E : (pendingOr0 (snd (SubFloat env addr amount w)) addr <? amount) = false).
  { rewrite SubFloat_pending. destruct (decide (addr = addr)); [| congruence].
    apply Z.ltb_ge. lia. }
  split.
  - now rewrite AddFloat_result, E.
  - intros a. rewrite AddFloat_pending, E, !SubFloat_pending.
    destruct (decide (a = addr)) as [-> |]; [| reflexivity].
    destruct (decide (addr = addr)); [lia | congruence].
Qed.

Lemma SubFloat_then_AddFloat_witness :
  fst (AddFloat goodEnv 7%N 30 (snd (SubFloat goodEnv 7%N 30 (freshWorld 1%N 60 []))))
  = Val None.
Proof.
  apply (SubFloat_then_AddFloat goodEnv goodEnv 7%N 30 (freshWorld 1%N 60 [])).
  change (pendingOr0 (freshWorld 1%N 60 []) 7%N) with 0. lia.
Defined.

(** X3.  A successful [AddFloat] followed by [SubFloat] of the same amount
    restores every sender's [pendingAmount]. *)
Theorem AddFloat_then_SubFloat (env env' : Env) (addr : Address) (amount : Z) (w : World) :
  amount <= pendingOr0 w addr ->
  fst (AddFloat env addr amount w) = Val None
  /\ forall a,
      pendingOr0 (snd (SubFloat env' addr amount (snd (AddFloat env addr amount w)))) a
      = pendingOr0 w a.
Proof.
  intros Hp.
  assert (E : (pendingOr0 w addr <? amount) = false) by (apply Z.ltb_ge; lia).
  split.
  - now rewrite AddFloat_result, E.
  - intros a. rewrite SubFloat_pending, !AddFloat_pending, E.
    destruct (decide (a = addr)) as [-> |]; [| reflexivity].
    destruct (decide (addr = addr)); [lia | congruence].
Qed.

Lemma AddFloat_then_SubFloat_witness :
  fst (AddFloat goodEnv 7%N 20 (snd (SubFloat goodEnv 7%N 30 (freshWorld 1%N 60 []))))
  = Val None
  /\ forall a,
      pendingOr0
        (snd (SubFloat goodEnv 7%N 20
                (snd (AddFloat goodEnv 7%N 20
                        (snd (SubFloat goodEnv 7%N 30 (freshWorld 1%N 60 []))))))) a
      = pendingOr0 (snd (SubFloat goodEnv 7%N 30 (freshWorld 1%N 60 []))) a.
Proof.
  apply (AddFloat_then_SubFloat goodEnv goodEnv 7%N 20
           (snd (SubFloat goodEnv 7%N 30 (freshWorld 1%N 60 [])))).
  change (pendingOr0 (snd (SubFloat goodEnv 7%N 30 (freshWorld 1%N 60 []))) 7%N) with 30.
  lia.
Defined.

(** X4.  [SubFloat] subtracts from the sender's max float: if [MaxFloat]
    returned [m] before, then after [SubFloat(addr, amount)] it returns
    [m - amount] under the same collaborators, and the max float of every
    other sender is what it was. *)
Theorem MaxFloat_after_SubFloat
        (env env' : Env) (addr : Address) (amount m : Z) (w : World) :
  fst (MaxFloat env addr w) = Val (Ok m) ->
  fst (MaxFloat env addr (snd (SubFloat env' addr amount w))) = Val (Ok (m - amount))
  /\ forall a, a <> addr ->
               fst (MaxFloat env a (snd (SubFloat env' addr amount w)))
               = fst (MaxFloat env a w).
Proof.
  rewrite !MaxFloat_fst. intros H. split.
  - rewrite claimant_SubFloat, SubFloat_pending.
    destruct (decide (addr = addr)); [| congruence].
    rewrite (maxFloatOutcome_shift env _ addr _ (pendingOr0 w addr + amount) m H).
    f_equal. f_equal. lia.
  - intros a Hne. rewrite !MaxFloat_fst, claimant_SubFloat, SubFloat_pending.
    now destruct (decide (a = addr)).
Qed.

Lemma MaxFloat_after_SubFloat_witness :
  fst (MaxFloat goodEnv 7%N (snd (SubFloat goodEnv 7%N 30 (freshWorld 1%N 60 []))))
  = Val (Ok (100 - 30)).
Proof.
  apply (MaxFloat_after_SubFloat goodEnv goodEnv 7%N 30 100 (freshWorld 1%N 60 [])).
  reflexivity.
Defined.

(** X5.  [AddFloat] adds to the sender's max float exactly when it succeeds:
    if [MaxFloat] returned [m] before, then after [AddFloat(addr, amount)] it
    returns [m + amount] when [amount] did not exceed the pending amount, and
    [m] again when [AddFloat] failed. *)
Theorem MaxFloat_after_AddFloat
        (env env' : Env) (addr : Address) (amount m : Z) (w : World) :
  fst (MaxFloat env addr w) = Val (Ok m) ->
  fst (MaxFloat env addr (snd (AddFloat env' addr amount w)))
  = Val (Ok (if pendingOr0 w addr <? amount then m else m + amount)).
Proof.
  rewrite !MaxFloat_fst. intros H.
  rewrite claimant_AddFloat, AddFloat_pending.
  destruct (decide (addr = addr)); [| congruence].
  destruct (pendingOr0 w addr <? amount).
  - exact H.
  - rewrite (maxFloatOutcome_shift env _ addr _ (pendingOr0 w addr - amount) m H).
    f_equal. f_equal. lia.
Qed.

Lemma MaxFloat_after_AddFloat_witness :
  fst (MaxFloat goodEnv 7%N
         (snd (AddFloat goodEnv 7%N 30 (snd (SubFloat goodEnv 7%N 30 (freshWorld 1%N 60 []))))))
  = Val (Ok (70 + 30)).
Proof.
  apply (MaxFloat_after_AddFloat goodEnv goodEnv 7%N 30 70
           (snd (SubFloat goodEnv 7%N 30 (freshWorld 1%N 60 [])))).
  reflexivity.
Defined.

(** X6.  [MaxFloat] and [QueueTicket] are neutral for the float: after either
    of them, for any sender, [MaxFloat] returns what it would have returned
    before (under the same collaborators), and no [pendingAmount] has
    changed. *)
Theorem MaxFloat_QueueTicket_keep_float
        (env env' : Env) (b : Address) (ticket : SignedTicket) (w : World) (a : Address) :
  fst (MaxFloat env a (snd (MaxFloat env' b w))) = fst (MaxFloat env a w)
  /\ fst (MaxFloat env a (snd (QueueTicket env' ticket w))) = fst (MaxFloat env a w)
  /\ pendingOr0 (snd (MaxFloat env' b w)) a = pendingOr0 w a
  /\ pendingOr0 (snd (QueueTicket env' ticket w)) a = pendingOr0 w a.
Proof.
  rewrite !MaxFloat_fst, claimant_MaxFloat, claimant_QueueTicket,
    MaxFloat_pending, QueueTicket_pending.
  repeat split.
Qed.

(** ** Eviction *)

Lemma wrap64_in_range (z : Z) : - 2 ^ 63 <= z < 2 ^ 63 -> BigInt.wrap64 z = z.
Proof. apply wrap64_low. Qed.

Section CleanupFold.

Variable clock : nat -> Z.
Variable t : Z.

Lemma cleanupFrom_subset (l : list (Address * remoteSender)) (i : nat)
      (m : gmap Address remoteSender) (c : list Address) (k : Address) (v : remoteSender) :
  (cleanupFrom clock t i l (m, c)).1 !! k = Some v -> m !! k = Some v.
Proof.
  revert i m c. induction l as [| kv l IH]; intros i m c; simpl; [tauto |].
  unfold cleanupStep. destruct (expiredAt (clock i) t kv.2); simpl.
  - intros H. apply IH in H. apply lookup_delete_Some in H. tauto.
  - apply IH.
Qed.

Lemma cleanupFrom_evicted (l : list (Address * remoteSender)) (i : nat)
      (m : gmap Address remoteSender) (c : list Address) (k : Address) :
  (exists j v, l !! j = Some (k, v) /\ expiredAt (clock (i + j)) t v = true) ->
  (cleanupFrom clock t i l (m, c)).1 !! k = None.
Proof.
  revert i m c. induction l as [| kv l IH]; intros i m c (j & v & Hj & He).
  - destruct j; discriminate.
  - simpl. destruct j as [| j]; simpl in Hj.
    + injection Hj as ->. rewrite Nat.add_0_r in He.
      unfold cleanupStep. simpl. rewrite He.
      destruct ((cleanupFrom clock t (S i) l (delete k m, c ++ [k])).1 !! k) as [x |] eqn:E;
        [| reflexivity].
      apply cleanupFrom_subset in E. rewrite lookup_delete_eq in E. discriminate.
    + destruct (cleanupStep (clock i) t (m, c) kv) as [m' c']. apply IH.
      exists j, v. split; [exact Hj |]. now rewrite Nat.add_succ_comm.
Qed.

Lemma cleanupFrom_kept (l : list (Address * remoteSender)) (i : nat)
      (m : gmap Address remoteSender) (c : list Address) (k : Address) :
  (forall j v, l !! j = Some (k, v) -> expiredAt (clock (i + j)) t v = false) ->
  (cleanupFrom clock t i l (m, c)).1 !! k = m !! k.
Proof.
  revert i m c. induction l as [| [k' v'] l IH]; intros i m c H; simpl; [reflexivity |].
  assert (Htl : forall j v, l !! j = Some (k, v) -> expiredAt (clock (S i + j)) t v = false).
  { intros j v Hj. rewrite Nat.add_succ_comm. now apply H. }
  unfold cleanupStep. simpl.
  destruct (expiredAt (clock i) t v') eqn:E.
  - rewrite IH by exact Htl.
    destruct (decide (k' = k)) as [-> | Hne].
    + rewrite <- (Nat.add_0_r i) in E. rewrite (H 0%nat v') in E by reflexivity.
      discriminate.
    + now rewrite lookup_delete_ne.
  - now apply IH.
Qed.

Lemma cleanupFrom_evictions (l : list (Address * remoteSender)) (i : nat)
      (m : gmap Address remoteSender) (c : list Address) :
  (cleanupFrom clock t i l (m, c)).2 = c ++ evictedFrom clock t i l.
Proof.
  revert i m c. induction l as [| kv l IH]; intros i m c; simpl.
  - now rewrite app_nil_r.
  - unfold cleanupStep. destruct (expiredAt (clock i) t kv.2); simpl.
    + rewrite IH. now rewrite <- app_assoc.
    + apply IH.
Qed.

Lemma elem_of_evictedFrom (l : list (Address * remoteSender)) (i : nat) (k : Address) :
  k ∈ evictedFrom clock t i l
  <-> exists j v, l !! j = Some (k, v) /\ expiredAt (clock (i + j)) t v = true.
Proof.
  revert i. induction l as [| [k' v'] l IH]; intros i; simpl.
  - split; [intros H; inversion H | intros (j & v & Hj & _); destruct j; discriminate].
  - rewrite elem_of_app, IH. split.
    + intros [Hh | (j & v & Hj & He)].
      * destruct (expiredAt (clock i) t v') eqn:E; [| inversion Hh].
        apply list_elem_of_singleton in Hh as ->.
        exists 0%nat, v'. split; [reflexivity |]. now rewrite Nat.add_0_r.
      * exists (S j), v. split; [exact Hj |]. now rewrite <- Nat.add_succ_comm.
    + intros ([| j] & v & Hj & He); simpl in Hj.
      * injection Hj as -> ->. rewrite Nat.add_0_r in He. rewrite He.
        left. now apply list_elem_of_singleton.
      * right. exists j, v. split; [exact Hj |]. now rewrite Nat.add_succ_comm.
Qed.

Lemma evictedFrom_sublist (l : list (Address * remoteSender)) (i : nat) :
  evictedFrom clock t i l `sublist_of` l.*1.
Proof.
  revert i. induction l as [| [k' v'] l IH]; intros i; simpl; [constructor |].
  destruct (expiredAt (clock i) t v'); simpl.
  - apply sublist_skip, IH.
  - apply sublist_cons, IH.
Qed.

End CleanupFold.

Lemma cleanupOver_evicted (clock : nat -> Z) (order : list (Address * remoteSender))
      (w : World) :
  (cleanupOver clock order w).1 = evictedFrom clock (ttl (sm w)) 0 order.
Proof. unfold cleanupOver. simpl. now rewrite cleanupFrom_evictions. Qed.

Lemma order_unique (order : list (Address * remoteSender)) (i j : nat) (k : Address)
      (v v' : remoteSender) :
  NoDup order.*1 -> order !! i = Some (k, v) -> order !! j = Some (k, v') ->
  i = j /\ v = v'.
Proof.
  intros Hnd Hi Hj.
  assert (Hij : i = j).
  { apply (NoDup_lookup order.*1 i j k Hnd); rewrite list_lookup_fmap.
    - now rewrite Hi.
    - now rewrite Hj. }
  subst j. rewrite Hi in Hj. now injection Hj as ->.
Qed.

Lemma order_NoDup (order : list (Address * remoteSender)) (m : gmap Address remoteSender) :
  order ≡ₚ map_to_list m -> NoDup order.*1.
Proof. intros ->. apply NoDup_fst_map_to_list. Qed.

(** Every entry is judged by the clock of its own visit. *)
Lemma cleanupOver_visit (clock : nat -> Z) (order : list (Address * remoteSender))
      (w : World) (i : nat) (k : Address) (v : remoteSender) :
  order ≡ₚ map_to_list (senders (sm w)) ->
  order !! i = Some (k, v) ->
  senders (sm (cleanupOver clock order w).2) !! k
  = (if expiredAt (clock i) (ttl (sm w)) v then None else Some v)
  /\ (k ∈ (cleanupOver clock order w).1 <-> expiredAt (clock i) (ttl (sm w)) v = true).
Proof.
  intros Hperm Hi.
  pose proof (order_NoDup order _ Hperm) as Hnd.
  assert (Hm : senders (sm w) !! k = Some v).
  { apply elem_of_map_to_list. rewrite <- Hperm. apply list_elem_of_lookup. eauto. }
  split.
  - unfold cleanupOver. simpl.
    destruct (expiredAt (clock i) (ttl (sm w)) v) eqn:E.
    + apply cleanupFrom_evicted. exists i, v. now split.
    + rewrite cleanupFrom_kept; [exact Hm |].
      intros j v' Hj. simpl.
      destruct (order_unique order i j k v v' Hnd Hi Hj) as [-> ->]. exact E.
  - rewrite cleanupOver_evicted, elem_of_evictedFrom. simpl. split.
    + intros (j & v' & Hj & He).
      now destruct (order_unique order i j k v v' Hnd Hi Hj) as [-> ->].
    + intros He. eauto.
Qed.

Lemma cleanupOver_absent (clock : nat -> Z) (order : list (Address * remoteSender))
      (w : World) (k : Address) :
  order ≡ₚ map_to_list (senders (sm w)) ->
  senders (sm w) !! k = None ->
  senders (sm (cleanupOver clock order w).2) !! k = None
  /\ k ∉ (cleanupOver clock order w).1.
Proof.
  intros Hperm Hk. split.
  - unfold cleanupOver. simpl.
    destruct ((cleanupFrom clock (ttl (sm w)) 0 order (senders (sm w), [])).1 !! k)
      as [x |] eqn:E; [| reflexivity].
    apply cleanupFrom_subset in E. congruence.
  - rewrite cleanupOver_evicted, elem_of_evictedFrom. intros (j & v & Hj & _).
    assert (Hin : (k, v) ∈ map_to_list (senders (sm w))).
    { rewrite <- Hperm. apply list_elem_of_lookup. eauto. }
    apply elem_of_map_to_list in Hin. congruence.
Qed.

Lemma cleanup_lookup (env : Env) (w : World) (k : Address) :
  senders (sm (cleanup env w).2) !! k =
    match senders (sm w) !! k with
    | Some v => if expired env (ttl (sm w)) v then None else Some v
    | None => None
    end.
Proof.
  unfold cleanup.
  destruct (senders (sm w) !! k) as [v |] eqn:Ek.
  - assert (Hin : (k, v) ∈ map_to_list (senders (sm w))) by now apply elem_of_map_to_list.
    apply list_elem_of_lookup in Hin as [i Hi].
    now destruct (cleanupOver_visit (fun _ => unixNow env) _ w i k v
                    (Permutation_refl _) Hi) as [H _].
  - now apply cleanupOver_absent.
Qed.

Lemma cleanup_elem_of (env : Env) (w : World) (k : Address) :
  k ∈ (cleanup env w).1
  <-> exists v, senders (sm w) !! k = Some v /\ expired env (ttl (sm w)) v = true.
Proof.
  unfold cleanup.
  destruct (senders (sm w) !! k) as [v |] eqn:Ek.
  - assert (Hin : (k, v) ∈ map_to_list (senders (sm w))) by now apply elem_of_map_to_list.
    apply list_elem_of_lookup in Hin as [i Hi].
    destruct (cleanupOver_visit (fun _ => unixNow env) _ w i k v
                (Permutation_refl _) Hi) as [_ H].
    rewrite H. split.
    + intros He. exists v. now split.
    + now intros (v' & [= <-] & He).
  - destruct (cleanupOver_absent (fun _ => unixNow env) _ w k (Permutation_refl _) Ek)
      as [_ H].
    split; [tauto | intros (v & Hv & _); discriminate].
Qed.

(** X7.  [cleanup] evicts exactly the cached senders whose last access is
    older than the ttl: each of them is reported once (one [done] signal and
    one [Clear]) and is gone from the cache, every other cached sender keeps
    its entry unchanged, and the ticket store and the trace of calls are
    untouched (queued tickets of an evicted sender stay in the store). *)
Theorem cleanup_evicts_exactly_expired (env : Env) (w : World) (k : Address) :
  senders (sm (cleanup env w).2) !! k =
    match senders (sm w) !! k with
    | Some v => if expired env (ttl (sm w)) v then None else Some v
    | None => None
    end
  /\ (k ∈ (cleanup env w).1
      <-> exists v, senders (sm w) !! k = Some v /\ expired env (ttl (sm w)) v = true)
  /\ NoDup (cleanup env w).1
  /\ tickets (cleanup env w).2 = tickets w
  /\ trace (cleanup env w).2 = trace w.
Proof.
  split; [apply cleanup_lookup |]. split; [apply cleanup_elem_of |].
  split; [| split; reflexivity].
  unfold cleanup. rewrite cleanupOver_evicted.
  apply (sublist_NoDup _ (map_to_list (senders (sm w))).*1).
  - apply NoDup_fst_map_to_list.
  - apply evictedFrom_sublist.
Qed.

(** X8.  The [range] loop of [cleanup] reads the clock at every visit, and
    each cached sender is judged by the clock of its own visit: it is
    evicted exactly when [unixNow() - lastAccess > ttl] at that moment, and
    keeps its entry otherwise.  Hence, when the clock reads the same at
    every visit, the outcome does not depend on the order in which the loop
    visits the map: the cache afterwards is the same and the evicted senders
    are the same up to order. *)
Theorem cleanup_judges_each_sender_at_its_visit
        (clock : nat -> Z) (order : list (Address * remoteSender)) (w : World) :
  order ≡ₚ map_to_list (senders (sm w)) ->
  (forall i k v,
      order !! i = Some (k, v) ->
      senders (sm (cleanupOver clock order w).2) !! k
      = (if expiredAt (clock i) (ttl (sm w)) v then None else Some v)
      /\ (k ∈ (cleanupOver clock order w).1 <-> expiredAt (clock i) (ttl (sm w)) v = true))
  /\ (forall now order',
         (forall i, clock i = now) ->
         order' ≡ₚ map_to_list (senders (sm w)) ->
         (cleanupOver clock order' w).2 = (cleanupOver clock order w).2
         /\ (cleanupOver clock order' w).1 ≡ₚ (cleanupOver clock order w).1).
Proof.
  intros Hperm. split.
  - intros i k v Hi. now apply cleanupOver_visit.
  - intros now order' Hclock Hperm'.
    assert (Hvisit : forall o k, o ≡ₚ map_to_list (senders (sm w)) ->
              senders (sm (cleanupOver clock o w).2) !! k
              = match senders (sm w) !! k with
                | Some v => if expiredAt now (ttl (sm w)) v then None else Some v
                | None => None
                end
              /\ (k ∈ (cleanupOver clock o w).1
                  <-> exists v, senders (sm w) !! k = Some v
                                /\ expiredAt now (ttl (sm w)) v = true)).
    { intros o k Ho. destruct (senders (sm w) !! k) as [v |] eqn:Ek.
      - assert (Hin : (k, v) ∈ o).
        { rewrite Ho. now apply elem_of_map_to_list. }
        apply list_elem_of_lookup in Hin as [i Hi].
        destruct (cleanupOver_visit clock o w i k v Ho Hi) as [H1 H2].
        rewrite Hclock in H1, H2. split; [exact H1 |]. rewrite H2. split.
        + intros He. exists v. now split.
        + now intros (v' & [= <-] & He).
      - destruct (cleanupOver_absent clock o w k Ho Ek) as [H1 H2].
        split; [exact H1 |]. split; [tauto | intros (v & Hv & _); discriminate]. }
    split.
    + assert (Hm : senders (sm (cleanupOver clock order' w).2)
                   = senders (sm (cleanupOver clock order w).2)).
      { apply map_eq. intros k.
        destruct (Hvisit order' k Hperm') as [-> _].
        now destruct (Hvisit order k Hperm) as [-> _]. }
      unfold cleanupOver in *. simpl in *. unfold withSenders. now rewrite Hm.
    + apply NoDup_Permutation.
      * rewrite cleanupOver_evicted.
        apply (sublist_NoDup _ order'.*1); [now apply (order_NoDup _ _ Hperm') |].
        apply evictedFrom_sublist.
      * rewrite cleanupOver_evicted.
        apply (sublist_NoDup _ order.*1); [now apply (order_NoDup _ _ Hperm) |].
        apply evictedFrom_sublist.
      * intros k. destruct (Hvisit order' k Hperm') as [_ ->].
        now destruct (Hvisit order k Hperm) as [_ ->].
Qed.

(** With a clock that ticks during the loop the visiting order shows: of two
    senders last seen at 1000, under a ttl of 60 and a clock reading 1060 and
    then 1061, the one visited second is evicted. *)
Example cleanup_ticking_clock :
  let w := snd (SubFloat goodEnv 8%N 5 (snd (SubFloat goodEnv 7%N 30 (freshWorld 1%N 60 [])))) in
  let e7 := (7%N, {| pendingAmount := 30; queue := newTicketQueue 7%N; lastAccess := 1000 |}) in
  let e8 := (8%N, {| pendingAmount := 5; queue := newTicketQueue 8%N; lastAccess := 1000 |}) in
  let clock := fun i => match i with O => 1060 | _ => 1061 end in
  (cleanupOver clock [e7; e8] w).1 = [8%N]
  /\ (cleanupOver clock [e8; e7] w).1 = [7%N].
Proof. vm_compute. split; reflexivity. Qed.

(** X9.  [cleanup] is idempotent: a second run at the same time evicts
    nobody and changes nothing. *)
Theorem cleanup_idempotent (env : Env) (w : World) :
  cleanup env (cleanup env w).2 = ([], (cleanup env w).2).
Proof.
  set (w1 := (cleanup env w).2).
  assert (Httl : ttl (sm w1) = ttl (sm w)) by reflexivity.
  assert (Hkeep : forall k v, senders (sm w1) !! k = Some v ->
                              expired env (ttl (sm w)) v = false).
  { intros k v. unfold w1. rewrite cleanup_lookup.
    destruct (senders (sm w) !! k) as [v0 |]; [| discriminate].
    destruct (expired env (ttl (sm w)) v0) eqn:E; [discriminate |].
    now intros [= <-]. }
  assert (Hnone : (cleanup env w1).1 = []).
  { destruct ((cleanup env w1).1) as [| k l] eqn:E; [reflexivity |].
    assert (Hk : k ∈ (cleanup env w1).1) by (rewrite E; now left).
    apply cleanup_elem_of in Hk as (v & Hv & He).
    rewrite Httl, (Hkeep k v Hv) in He. discriminate. }
  assert (Hm : senders (sm (cleanup env w1).2) = senders (sm w1)).
  { apply map_eq. intros k. rewrite cleanup_lookup, Httl.
    destruct (senders (sm w1) !! k) as [v |] eqn:Ek; [| reflexivity].
    now rewrite (Hkeep k v Ek). }
  destruct (cleanup env w1) as [ev w2] eqn:E. simpl in Hnone, Hm. subst ev. f_equal.
  assert (Hw2 : w2 = (cleanup env w1).2) by now rewrite E.
  rewrite Hw2 in *. unfold cleanup, cleanupOver in *. simpl in *.
  unfold withSenders. simpl. now rewrite Hm.
Qed.

Lemma cleanup_judges_each_sender_at_its_visit_witness :
  (cleanupOver (fun _ => 1061)
     [(8%N, {| pendingAmount := 5; queue := newTicketQueue 8%N; lastAccess := 1001 |});
      (7%N, {| pendingAmount := 30; queue := newTicketQueue 7%N; lastAccess := 1000 |})]
     (snd (SubFloat (atTime 1001 goodEnv) 8%N 5
             (snd (SubFloat goodEnv 7%N 30 (freshWorld 1%N 60 [])))))).1
  ≡ₚ (cleanupOver (fun _ => 1061)
        [(7%N, {| pendingAmount := 30; queue := newTicketQueue 7%N; lastAccess := 1000 |});
         (8%N, {| pendingAmount := 5; queue := newTicketQueue 8%N; lastAccess := 1001 |})]
        (snd (SubFloat (atTime 1001 goodEnv) 8%N 5
                (snd (SubFloat goodEnv 7%N 30 (freshWorld 1%N 60 [])))))).1.
Proof.
  apply (cleanup_judges_each_sender_at_its_visit (fun _ => 1061)
           [(7%N, {| pendingAmount := 30; queue := newTicketQueue 7%N; lastAccess := 1000 |});
            (8%N, {| pendingAmount := 5; queue := newTicketQueue 8%N; lastAccess := 1001 |})]
           (snd (SubFloat (atTime 1001 goodEnv) 8%N 5
                   (snd (SubFloat goodEnv 7%N 30 (freshWorld 1%N 60 [])))))
        ) with (now := 1061).
  - vm_compute. first [reflexivity | apply perm_swap].
  - reflexivity.
  - vm_compute. first [reflexivity | apply perm_swap].
Defined.

(** X10.  Any access resets the timer: after [AddFloat], [SubFloat] or
    [QueueTicket] at time [unixNow env], a [cleanup] at a time no more than
    the ttl later keeps the sender the call named, with its entry unchanged,
    and does not report it as evicted. *)
Theorem access_survives_cleanup (env env' : Env) (c : call) (w : World) :
  - 2 ^ 63 <= unixNow env' - unixNow env < 2 ^ 63 ->
  unixNow env' - unixNow env <= ttl (sm w) ->
  is_Some (senders (sm (snd (run_call (env, c) w))) !! call_sender c)
  /\ senders (sm (cleanup env' (snd (run_call (env, c) w))).2) !! call_sender c
     = senders (sm (snd (run_call (env, c) w))) !! call_sender c
  /\ call_sender c ∉ (cleanup env' (snd (run_call (env, c) w))).1.
Proof.
  intros Hrange Hle.
  destruct (run_call_lookup_self env c w) as (rs & Hrs & Ht).
  assert (He : expired env' (ttl (sm (snd (run_call (env, c) w)))) rs = false).
  { unfold expired. rewrite run_call_ttl, Ht, wrap64_in_range by exact Hrange.
    apply Z.ltb_ge. exact Hle. }
  split; [rewrite Hrs; eauto |]. split.
  - now rewrite cleanup_lookup, Hrs, He.
  - rewrite cleanup_elem_of. intros (v & Hv & Hev). rewrite Hrs in Hv.
    injection Hv as <-. rewrite He in Hev. discriminate.
Qed.

Lemma access_survives_cleanup_witness :
  is_Some (senders (sm (snd (run_call (goodEnv, CallSubFloat 7%N 30)
                                      (freshWorld 1%N 60 [])))) !! 7%N).
Proof.
  apply (access_survives_cleanup goodEnv (atTime 1060 goodEnv) (CallSubFloat 7%N 30)
           (freshWorld 1%N 60 [])).
  - simpl. lia.
  - simpl. lia.
Defined.

(** X11.  Eviction forgets the pending amount.  When [SubFloat(addr, amount)]
    with [amount > 0] is followed, more than the ttl later, by a [cleanup],
    the sender is evicted together with its [pendingAmount]: the matching
    [AddFloat(addr, amount)] then fails with the insufficient-pending error,
    and [MaxFloat] is back at the value it has with nothing pending. *)
Theorem eviction_forgets_pending
        (env0 env1 env2 : Env) (addr : Address) (amount m : Z) (w : World) :
  0 < amount ->
  ttl (sm w) < unixNow env1 - unixNow env0 < 2 ^ 63 ->
  - 2 ^ 63 <= unixNow env1 - unixNow env0 ->
  fst (MaxFloat env2 addr w) = Val (Ok m) ->
  addr ∈ (cleanup env1 (snd (SubFloat env0 addr amount w))).1
  /\ senders (sm (cleanup env1 (snd (SubFloat env0 addr amount w))).2) !! addr = None
  /\ fst (AddFloat env2 addr amount (cleanup env1 (snd (SubFloat env0 addr amount w))).2)
     = Val (Some ErrInsufficientPending)
  /\ fst (MaxFloat env2 addr (cleanup env1 (snd (SubFloat env0 addr amount w))).2)
     = Val (Ok (m + pendingOr0 w addr)).
Proof.
  intros Hpos Hlate Hlow Hmax.
  set (w1 := snd (SubFloat env0 addr amount w)).
  destruct (run_call_lookup_self env0 (CallSubFloat addr amount) w) as (rs & Hrs & Ht).
  simpl in Hrs. fold w1 in Hrs.
  assert (Httl : ttl (sm w1) = ttl (sm w)) by apply (run_call_ttl env0 (CallSubFloat addr amount)).
  assert (He : expired env1 (ttl (sm w1)) rs = true).
  { unfold expired. rewrite Httl, Ht, wrap64_in_range by lia. apply Z.ltb_lt. lia. }
  assert (Hgone : senders (sm (cleanup env1 w1).2) !! addr = None).
  { now rewrite cleanup_lookup, Hrs, He. }
  assert (Hp0 : pendingOr0 (cleanup env1 w1).2 addr = 0).
  { unfold pendingOr0. now rewrite Hgone. }
  split; [| split; [| split]].
  - apply cleanup_elem_of. eauto.
  - exact Hgone.
  - rewrite AddFloat_result, Hp0.
    assert (E : (0 <? amount) = true) by now apply Z.ltb_lt.
    now rewrite E.
  - rewrite MaxFloat_fst in *. rewrite Hp0.
    change (claimant (sm (cleanup env1 w1).2)) with (claimant (sm w1)).
    unfold w1. rewrite claimant_SubFloat.
    rewrite (maxFloatOutcome_shift env2 _ addr _ 0 m Hmax).
    f_equal. f_equal. lia.
Qed.

Lemma eviction_forgets_pending_witness :
  fst (AddFloat goodEnv 7%N 30
         (cleanup (atTime 1061 goodEnv)
                  (snd (SubFloat goodEnv 7%N 30 (freshWorld 1%N 60 [])))).2)
  = Val (Some ErrInsufficientPending).
Proof.
  apply (eviction_forgets_pending goodEnv (atTime 1061 goodEnv) goodEnv 7%N 30 100
           (freshWorld 1%N 60 [])).
  - lia.
  - simpl. lia.
  - simpl. lia.
  - reflexivity.
Defined.

(** ** The redemption attempt, path by path *)

Lemma cacheEvent_cached (w : World) (a : Address) :
  is_Some (senders (sm w) !! a) -> cacheEvent w a = [].
Proof. intros [rs H]. unfold cacheEvent. now rewrite H. Qed.

Lemma MaxFloat_cached (env : Env) (a : Address) (w : World) :
  is_Some (senders (sm (snd (MaxFloat env a w))) !! a).
Proof. rewrite MaxFloat_eq. simpl. rewrite touched_lookup. eauto. Qed.

Lemma SubFloat_cached (env : Env) (a : Address) (amount : Z) (w : World) :
  is_Some (senders (sm (snd (SubFloat env a amount w))) !! a).
Proof.
  destruct (run_call_lookup_self env (CallSubFloat a amount) w) as (rs & H & _).
  simpl in H. rewrite H. eauto.
Qed.

Lemma floatCovers_true (env : Env) (ticket : SignedTicket) (w : World) :
  floatCovers env ticket w = true <->
  exists maxFloat, fst (MaxFloat env (Sender (ticket_ ticket)) w) = Val (Ok maxFloat)
                   /\ 0 < maxFloat /\ FaceValue (ticket_ ticket) <= maxFloat.
Proof.
  unfold floatCovers.
  destruct (fst (MaxFloat env (Sender (ticket_ ticket)) w)) as [[mf | e] |].
  - rewrite andb_true_iff, Z.ltb_lt, Z.leb_le. split.
    + intros [H0 H1]. eauto.
    + intros (mf' & [= <-] & H0 & H1). tauto.
  - split; [discriminate | intros (mf & H & _); discriminate].
  - split; [discriminate | intros (mf & H & _); discriminate].
Qed.

(** The calls made by [redeemWinningTicket], on every path. *)
Lemma redeem_trace (env : Env) (ticket : SignedTicket) (w : World) :
  trace (snd (redeemWinningTicket env ticket w)) = trace w ++ redeemEvents env ticket w.
Proof.
  unfold redeemEvents.
  set (s := Sender (ticket_ ticket)). set (fv := FaceValue (ticket_ ticket)).
  destruct (fst (MaxFloat env s w)) as [[mf | e] |] eqn:Hmax.
  - destruct ((0 <? mf) && (fv <=? mf)) eqn:Hc.
    + apply andb_true_iff in Hc as [H0 H1]. apply Z.ltb_lt in H0. apply Z.leb_le in H1.
      rewrite (redeem_attempts env ticket w mf Hmax H0 H1).
      rewrite restoreFloat_eq. simpl snd. fold s fv.
      rewrite AddFloat_trace. cbn [appended trace sm].
      change (cacheEvent (appended (brokerEvents env ticket)
                            (snd (SubFloat env s fv (snd (MaxFloat env s w))))) s)
        with (cacheEvent (snd (SubFloat env s fv (snd (MaxFloat env s w)))) s).
      rewrite (cacheEvent_cached _ s (SubFloat_cached env s fv _)).
      rewrite SubFloat_trace, (cacheEvent_cached _ s (MaxFloat_cached env s w)).
      rewrite MaxFloat_trace. rewrite <- !app_assoc. reflexivity.
    + assert (Hf : mf <= 0 \/ mf < fv).
      { apply andb_false_iff in Hc as [H | H];
          [apply Z.ltb_ge in H | apply Z.leb_gt in H]; lia. }
      rewrite (redeem_requeues env ticket w mf Hmax Hf). simpl snd.
      rewrite QueueTicket_trace. fold s.
      rewrite (cacheEvent_cached _ s (MaxFloat_cached env s w)).
      rewrite MaxFloat_trace. rewrite <- !app_assoc. reflexivity.
  - rewrite (redeem_MaxFloat_fails env ticket w e Hmax). simpl snd.
    rewrite MaxFloat_trace, app_nil_r. reflexivity.
  - rewrite (redeem_MaxFloat_panics env ticket w Hmax). simpl snd.
    rewrite MaxFloat_trace, app_nil_r. reflexivity.
Qed.

(** The pending amounts across [redeemWinningTicket], on every path. *)
Lemma redeem_pending_frame (env : Env) (ticket : SignedTicket) (w : World) (a : Address) :
  0 <= pendingOr0 w (Sender (ticket_ ticket)) ->
  pendingOr0 (snd (redeemWinningTicket env ticket w)) a = pendingOr0 w a.
Proof.
  intros Hs.
  set (s := Sender (ticket_ ticket)) in *. set (fv := FaceValue (ticket_ ticket)).
  destruct (fst (MaxFloat env s w)) as [[mf | e] |] eqn:Hmax.
  - destruct (Z_le_gt_dec mf 0) as [Hle | Hgt];
      [| destruct (Z_lt_ge_dec mf fv) as [Hlt | Hge]].
    1, 2: rewrite (redeem_requeues env ticket w mf Hmax ltac:(fold fv; lia)); simpl snd;
      now rewrite QueueTicket_pending, MaxFloat_pending.
    rewrite (redeem_attempts env ticket w mf Hmax ltac:(lia) ltac:(fold fv; lia)).
    rewrite restoreFloat_eq. simpl snd. fold s fv.
    rewrite AddFloat_pending.
    change (pendingOr0 (appended (brokerEvents env ticket)
                          (snd (SubFloat env s fv (snd (MaxFloat env s w))))) ?x)
      with (pendingOr0 (snd (SubFloat env s fv (snd (MaxFloat env s w)))) x).
    change (pendingOr0 (appended (brokerEvents env ticket)
                          (snd (SubFloat env s fv (snd (MaxFloat env s w))))) s)
      with (pendingOr0 (snd (SubFloat env s fv (snd (MaxFloat env s w)))) s).
    change (pendingOr0 (appended (brokerEvents env ticket)
                          (snd (SubFloat env s fv (snd (MaxFloat env s w))))) a)
      with (pendingOr0 (snd (SubFloat env s fv (snd (MaxFloat env s w)))) a).
    rewrite !SubFloat_pending, !MaxFloat_pending.
    destruct (decide (s = s)); [| congruence].
    assert (E : (pendingOr0 w s + fv <? fv) = false) by (apply Z.ltb_ge; lia).
    rewrite E. destruct (decide (a = s)) as [-> |]; [lia | reflexivity].
  - rewrite (redeem_MaxFloat_fails env ticket w e Hmax). simpl snd.
    apply MaxFloat_pending.
  - rewrite (redeem_MaxFloat_panics env ticket w Hmax). simpl snd.
    apply MaxFloat_pending.
Qed.

(** X12.  [redeemWinningTicket] keeps the monitor's invariant and the float:
    from a state with no negative [pendingAmount], on every way out (ticket
    re-queued, [MaxFloat] error or panic, broker error, confirmed
    redemption) every sender's [pendingAmount] is what it was, so none is
    negative afterwards. *)
Theorem redeem_keeps_pending (env : Env) (ticket : SignedTicket) (w : World) :
  pending_nonneg w ->
  (forall a, pendingOr0 (snd (redeemWinningTicket env ticket w)) a = pendingOr0 w a)
  /\ pending_nonneg (snd (redeemWinningTicket env ticket w)).
Proof.
  intros Hnn. rewrite pending_nonneg_pendingOr0 in *.
  assert (H : forall a, pendingOr0 (snd (redeemWinningTicket env ticket w)) a
                        = pendingOr0 w a).
  { intros a. apply redeem_pending_frame. apply Hnn. }
  split; [exact H |]. intros a. rewrite H. apply Hnn.
Qed.

Lemma redeem_keeps_pending_witness :
  pending_nonneg (snd (redeemWinningTicket goodEnv (stubTicket 7%N 30)
                         (snd (SubFloat goodEnv 8%N 5 (freshWorld 1%N 60 []))))).
Proof.
  apply (redeem_keeps_pending goodEnv (stubTicket 7%N 30)
           (snd (SubFloat goodEnv 8%N 5 (freshWorld 1%N 60 [])))).
  apply pending_nonneg_pendingOr0. intros a. rewrite SubFloat_pending.
  change (pendingOr0 (freshWorld 1%N 60 []) 8%N) with 0.
  change (pendingOr0 (freshWorld 1%N 60 []) a) with 0.
  destruct (decide (a = 8%N)); lia.
Defined.

(** X13.  A ticket whose [MaxFloat] call fails is lost: when [GetSenderInfo]
    returns an error, [redeemWinningTicket] returns that error after the
    [MaxFloat] call alone -- no [QueueTicket], no float change, no broker
    call -- and the ticket store is as before, so the ticket taken from the
    queue is neither redeemed nor put back. *)
Theorem redeem_drops_ticket_on_MaxFloat_error
        (env : Env) (ticket : SignedTicket) (w : World) (e : error) :
  GetSenderInfo env (Sender (ticket_ ticket)) = Err e ->
  fst (redeemWinningTicket env ticket w) = Val (Some e)
  /\ trace (snd (redeemWinningTicket env ticket w))
     = trace w ++ EvMaxFloat (Sender (ticket_ ticket))
               :: cacheEvent w (Sender (ticket_ ticket))
  /\ tickets (snd (redeemWinningTicket env ticket w)) = tickets w.
Proof.
  intros He. apply MaxFloat_error_iff with (w := w) in He.
  rewrite (redeem_MaxFloat_fails env ticket w e He). simpl fst. simpl snd.
  split; [reflexivity |]. split; [apply MaxFloat_trace | apply MaxFloat_tickets].
Qed.

Lemma redeem_drops_ticket_on_MaxFloat_error_witness :
  fst (redeemWinningTicket
         (stubEnv (Err (ErrExternal "GetSenderInfo error")) (Some 0, None) 5 10 None
                  (Ok 77) None)
         (stubTicket 7%N 30) (freshWorld 1%N 60 [stubTicket 9%N 1]))
  = Val (Some (ErrExternal "GetSenderInfo error")).
Proof.
  apply (redeem_drops_ticket_on_MaxFloat_error
           (stubEnv (Err (ErrExternal "GetSenderInfo error")) (Some 0, None) 5 10 None
                    (Ok 77) None)
           (stubTicket 7%N 30) (freshWorld 1%N 60 [stubTicket 9%N 1])).
  reflexivity.
Defined.

(** X14.  No ticket goes to the broker without float: the attempt calls
    [Broker.RedeemWinningTicket] exactly when [MaxFloat] returned a positive
    float that is at least the face value, then exactly once and with the
    ticket at hand; [Broker.CheckTx] is called exactly when that submission
    succeeded, with the transaction it returned. *)
Theorem broker_called_iff_float_covers (env : Env) (ticket : SignedTicket) (w : World) :
  exists evs,
    trace (snd (redeemWinningTicket env ticket w)) = trace w ++ evs
    /\ List.filter is_broker_event evs =
         if floatCovers env ticket w
         then EvRedeemWinningTicket ticket ::
              match RedeemWinningTicket env (ticket_ ticket) (Sig ticket) (RecipientRand ticket)
              with
              | Ok tx => [EvCheckTx tx]
              | Err _ => []
              end
         else [].
Proof.
  exists (redeemEvents env ticket w). split; [apply redeem_trace |].
  unfold redeemEvents, floatCovers.
  destruct (cacheEvent_quiet w (Sender (ticket_ ticket))) as (_ & _ & Hb).
  cbn [List.filter is_broker_event]. rewrite List.filter_app, Hb. cbn [app].
  destruct (fst (MaxFloat env (Sender (ticket_ ticket)) w)) as [[mf | e] |];
    [| reflexivity | reflexivity].
  destruct ((0 <? mf) && (FaceValue (ticket_ ticket) <=? mf)); [| reflexivity].
  cbn [List.filter is_broker_event]. rewrite List.filter_app. cbn [List.filter is_broker_event].
  rewrite app_nil_r. unfold brokerEvents, redemptionErrorMetric.
  destruct (RedeemWinningTicket env (ticket_ ticket) (Sig ticket) (RecipientRand ticket))
    as [tx | e]; simpl.
  - destruct (CheckTx env tx); destruct (monitorEnabled env); reflexivity.
  - destruct (monitorEnabled env); reflexivity.
Qed.

(** X15.  Metrics: an attempt reports at most one metric, and only when
    [monitor.Enabled] is set and the ticket went to the broker;
    [ValueRedeemed] with the sender and the full face value when the broker
    confirmed, [TicketRedemptionError] with the sender when the submission
    or the confirmation failed.  A re-queued or dropped ticket reports
    nothing. *)
Theorem redeem_metrics (env : Env) (ticket : SignedTicket) (w : World) :
  exists evs,
    trace (snd (redeemWinningTicket env ticket w)) = trace w ++ evs
    /\ List.filter is_metric_event evs =
         if monitorEnabled env && floatCovers env ticket w
         then match brokerResult env ticket with
              | None => [EvValueRedeemed (Sender (ticket_ ticket)) (FaceValue (ticket_ ticket))]
              | Some _ => [EvTicketRedemptionError (Sender (ticket_ ticket))]
              end
         else [].
Proof.
  exists (redeemEvents env ticket w). split; [apply redeem_trace |].
  unfold redeemEvents, floatCovers.
  assert (Hc : List.filter is_metric_event (cacheEvent w (Sender (ticket_ ticket))) = []).
  { unfold cacheEvent. now destruct (senders (sm w) !! Sender (ticket_ ticket)). }
  cbn [List.filter is_metric_event]. rewrite List.filter_app, Hc. cbn [app].
  destruct (fst (MaxFloat env (Sender (ticket_ ticket)) w)) as [[mf | e] |];
    [| now rewrite andb_false_r | now rewrite andb_false_r].
  destruct ((0 <? mf) && (FaceValue (ticket_ ticket) <=? mf));
    [| now rewrite andb_false_r].
  rewrite andb_true_r.
  cbn [List.filter is_metric_event]. rewrite List.filter_app. cbn [List.filter is_metric_event].
  rewrite app_nil_r. unfold brokerEvents, brokerResult, redemptionErrorMetric.
  destruct (RedeemWinningTicket env (ticket_ ticket) (Sig ticket) (RecipientRand ticket))
    as [tx | e]; simpl.
  - destruct (CheckTx env tx); destruct (monitorEnabled env); reflexivity.
  - destruct (monitorEnabled env); reflexivity.
Qed.

(** X16.  [redeemWinningTicket] returns nil only for a confirmed redemption:
    a nil result means the float covered the ticket and both broker calls
    succeeded; from a state where the sender's [pendingAmount] is not
    negative the converse holds too. *)
Theorem redeem_nil_iff_confirmed (env : Env) (ticket : SignedTicket) (w : World) :
  (fst (redeemWinningTicket env ticket w) = Val None ->
   floatCovers env ticket w = true /\ brokerResult env ticket = None)
  /\ (0 <= pendingOr0 w (Sender (ticket_ ticket)) ->
      floatCovers env ticket w = true ->
      fst (redeemWinningTicket env ticket w) = Val (brokerResult env ticket)).
Proof.
  set (s := Sender (ticket_ ticket)). set (fv := FaceValue (ticket_ ticket)).
  split.
  - unfold floatCovers. fold s fv.
    destruct (fst (MaxFloat env s w)) as [[mf | e] |] eqn:Hmax.
    + destruct ((0 <? mf) && (fv <=? mf)) eqn:Hc.
      * apply andb_true_iff in Hc as [H0 H1]. apply Z.ltb_lt in H0. apply Z.leb_le in H1.
        rewrite (redeem_attempts env ticket w mf Hmax H0 H1), restoreFloat_eq. simpl fst.
        destruct (_ <? _); [discriminate |]. intros [= ->]. now split.
      * assert (Hf : mf <= 0 \/ mf < fv).
        { apply andb_false_iff in Hc as [H | H];
            [apply Z.ltb_ge in H | apply Z.leb_gt in H]; lia. }
        rewrite (redeem_requeues env ticket w mf Hmax Hf). discriminate.
    + rewrite (redeem_MaxFloat_fails env ticket w e Hmax). discriminate.
    + rewrite (redeem_MaxFloat_panics env ticket w Hmax). discriminate.
  - intros Hs Hc. apply floatCovers_true in Hc as (mf & Hmax & H0 & H1).
    rewrite (redeem_attempts env ticket w mf Hmax H0 H1), restoreFloat_eq. simpl fst.
    fold s fv.
    change (pendingOr0 (appended (brokerEvents env ticket)
                          (snd (SubFloat env s fv (snd (MaxFloat env s w))))) s)
      with (pendingOr0 (snd (SubFloat env s fv (snd (MaxFloat env s w)))) s).
    rewrite SubFloat_pending, MaxFloat_pending.
    destruct (decide (s = s)); [| congruence].
    assert (E : (pendingOr0 w s + fv <? fv) = false) by (apply Z.ltb_ge; lia).
    now rewrite E.
Qed.

Lemma redeem_nil_iff_confirmed_witness :
  fst (redeemWinningTicket goodEnv (stubTicket 7%N 30) (freshWorld 1%N 60 [])) = Val None.
Proof.
  apply (redeem_nil_iff_confirmed goodEnv (stubTicket 7%N 30) (freshWorld 1%N 60 [])).
  - change (pendingOr0 (freshWorld 1%N 60 []) (Sender (ticket_ (stubTicket 7%N 30)))) with 0.
    lia.
  - reflexivity.
Defined.

(** ** The ticket-queue consumer *)

Lemma redeem_pending_nonneg (env : Env) (ticket : SignedTicket) (w : World) :
  pending_nonneg w -> pending_nonneg (snd (redeemWinningTicket env ticket w)).
Proof.
  rewrite !pending_nonneg_pendingOr0. intros Hnn a.
  rewrite redeem_pending_frame by apply Hnn. apply Hnn.
Qed.

Lemma MaxFloat_filter_redeemEvents (env : Env) (ticket : SignedTicket) (w : World) :
  List.filter is_MaxFloat_event (redeemEvents env ticket w)
  = [EvMaxFloat (Sender (ticket_ ticket))].
Proof.
  unfold redeemEvents.
  assert (Hc : List.filter is_MaxFloat_event (cacheEvent w (Sender (ticket_ ticket))) = []).
  { unfold cacheEvent. now destruct (senders (sm w) !! Sender (ticket_ ticket)). }
  cbn [List.filter is_MaxFloat_event]. rewrite List.filter_app, Hc. cbn [app]. f_equal.
  destruct (fst (MaxFloat env (Sender (ticket_ ticket)) w)) as [[mf | e] |];
    [| reflexivity | reflexivity].
  destruct ((0 <? mf) && (FaceValue (ticket_ ticket) <=? mf)); [| reflexivity].
  cbn [List.filter is_MaxFloat_event]. rewrite List.filter_app. cbn [List.filter is_MaxFloat_event].
  rewrite app_nil_r. unfold brokerEvents, redemptionErrorMetric.
  destruct (RedeemWinningTicket env (ticket_ ticket) (Sig ticket) (RecipientRand ticket))
    as [tx | e]; simpl.
  - destruct (CheckTx env tx); destruct (monitorEnabled env); reflexivity.
  - destruct (monitorEnabled env); reflexivity.
Qed.

Lemma consumerLoop_cons (env : Env) (ticket : SignedTicket) (sels : list selected)
      (w : World) :
  startTicketQueueConsumerLoop (SelRedeemable env ticket :: sels) w =
    match fst (redeemWinningTicket env ticket w) with
    | Val _ => startTicketQueueConsumerLoop sels (snd (redeemWinningTicket env ticket w))
    | Panic => (Panic, snd (redeemWinningTicket env ticket w))
    end.
Proof.
  simpl. unfold bind.
  now destruct (redeemWinningTicket env ticket w) as [[r |] w1].
Qed.

(** X17.  The consumer loop attempts every ticket it receives before its
    stop signal exactly once and in the order received, whether or not
    earlier attempts returned an error, and nothing after the signal: if no
    attempt panics, the monitor, the ticket store and the trace of calls
    after the loop are those of calling [redeemWinningTicket] on each
    received ticket in turn; in particular the [MaxFloat] calls in the trace
    are those of the received tickets' senders, in order.  The loop has
    stopped its queue and returned exactly when a [done] or [quit] was
    received. *)
Theorem consumer_loop_attempts_each_ticket_once
        (sels : list selected) (w : World) (st : loopState) :
  fst (startTicketQueueConsumerLoop sels w) = Val st ->
  snd (startTicketQueueConsumerLoop sels w) = redeemEach (receivedAttempts sels) w
  /\ (exists evs,
        trace (snd (startTicketQueueConsumerLoop sels w)) = trace w ++ evs
        /\ List.filter is_MaxFloat_event evs
           = List.map (fun t => EvMaxFloat (Sender (ticket_ t))) (receivedTickets sels))
  /\ st = if stopSignalled sels then QueueStopped else Selecting.
Proof.
  revert w. induction sels as [| [env ticket | |] sels IH]; intros w Hst.
  - simpl in *. injection Hst as <-. split; [reflexivity |]. split; [| reflexivity].
    exists []. now rewrite app_nil_r.
  - rewrite consumerLoop_cons in *.
    destruct (fst (redeemWinningTicket env ticket w)) as [r |] eqn:Er; [| discriminate].
    destruct (IH _ Hst) as (Hw & (evs & Htr & Hf) & Hs).
    split; [exact Hw |]. split; [| exact Hs].
    exists (redeemEvents env ticket w ++ evs). split.
    + rewrite Htr, redeem_trace. now rewrite <- app_assoc.
    + rewrite List.filter_app, MaxFloat_filter_redeemEvents, Hf. reflexivity.
  - simpl in *. injection Hst as <-. split; [reflexivity |]. split; [| reflexivity].
    exists []. now rewrite app_nil_r.
  - simpl in *. injection Hst as <-. split; [reflexivity |]. split; [| reflexivity].
    exists []. now rewrite app_nil_r.
Qed.

Lemma consumer_loop_attempts_each_ticket_once_witness :
  snd (startTicketQueueConsumerLoop
         [SelRedeemable goodEnv (stubTicket 7%N 130);
          SelRedeemable goodEnv (stubTicket 8%N 30);
          SelDone;
          SelRedeemable goodEnv (stubTicket 9%N 30)]
         (freshWorld 1%N 60 []))
  = redeemEach [(goodEnv, stubTicket 7%N 130); (goodEnv, stubTicket 8%N 30)]
               (freshWorld 1%N 60 []).
Proof.
  apply (consumer_loop_attempts_each_ticket_once
           [SelRedeemable goodEnv (stubTicket 7%N 130);
            SelRedeemable goodEnv (stubTicket 8%N 30);
            SelDone;
            SelRedeemable goodEnv (stubTicket 9%N 30)]
           (freshWorld 1%N 60 []) QueueStopped).
  vm_compute. reflexivity.
Defined.

(** The run of the example: the first ticket is sent back to the queue, the
    second is redeemed all the same, the one after [done] is left alone. *)
Example consumer_loop_run :
  trace (snd (startTicketQueueConsumerLoop
                [SelRedeemable goodEnv (stubTicket 7%N 130);
                 SelRedeemable goodEnv (stubTicket 8%N 30);
                 SelDone;
                 SelRedeemable goodEnv (stubTicket 9%N 30)]
                (freshWorld 1%N 60 [])))
  = [EvMaxFloat 7%N; EvCache 7%N; EvQueueTicket (stubTicket 7%N 130);
     EvMaxFloat 8%N; EvCache 8%N; EvSubFloat 8%N 30;
     EvRedeemWinningTicket (stubTicket 8%N 30); EvCheckTx 77; EvValueRedeemed 8%N 30;
     EvAddFloat 8%N 30].
Proof. vm_compute. reflexivity. Qed.

(** X18.  The consumer loop keeps the float: from a state with no negative
    [pendingAmount], after any sequence of received tickets and signals --
    also one cut short by a panic -- every sender's [pendingAmount] is what
    it was before the loop started. *)
Theorem consumer_loop_keeps_pending (sels : list selected) (w : World) :
  pending_nonneg w ->
  (forall a, pendingOr0 (snd (startTicketQueueConsumerLoop sels w)) a = pendingOr0 w a)
  /\ pending_nonneg (snd (startTicketQueueConsumerLoop sels w)).
Proof.
  revert w. induction sels as [| [env ticket | |] sels IH]; intros w Hnn;
    try (split; [reflexivity | exact Hnn]).
  rewrite consumerLoop_cons.
  pose proof (redeem_pending_nonneg env ticket w Hnn) as Hnn1.
  assert (Hfr : forall a, pendingOr0 (snd (redeemWinningTicket env ticket w)) a
                          = pendingOr0 w a).
  { intros a. apply redeem_pending_frame.
    now apply pending_nonneg_pendingOr0. }
  destruct (fst (redeemWinningTicket env ticket w)) as [r |].
  - destruct (IH _ Hnn1) as [Hp Hn]. split; [| exact Hn].
    intros a. now rewrite Hp, Hfr.
  - simpl. split; [exact Hfr | exact Hnn1].
Qed.

Lemma consumer_loop_keeps_pending_witness :
  pending_nonneg
    (snd (startTicketQueueConsumerLoop
            [SelRedeemable goodEnv (stubTicket 7%N 130);
             SelRedeemable goodEnv (stubTicket 8%N 30);
             SelQuit]
            (freshWorld 1%N 60 []))).
Proof.
  apply (consumer_loop_keeps_pending
           [SelRedeemable goodEnv (stubTicket 7%N 130);
            SelRedeemable goodEnv (stubTicket 8%N 30);
            SelQuit]
           (freshWorld 1%N 60 [])).
  intros a rs H. simpl in H. rewrite lookup_empty in H. discriminate.
Defined.

(** ** Caching *)

(** X23.  A public call touches the cache entry of the sender it names and
    no other: after [AddFloat], [SubFloat] or [QueueTicket] that sender is
    cached with [lastAccess] set to the time of the call, every other
    sender's entry is exactly what it was (none is added, removed or
    altered), and the ttl is unchanged. *)
Theorem public_call_touches_only_its_sender (env : Env) (c : call) (w : World) :
  (exists rs, senders (sm (snd (run_call (env, c) w))) !! call_sender c = Some rs
              /\ lastAccess rs = unixNow env)
  /\ (forall a, a <> call_sender c ->
                senders (sm (snd (run_call (env, c) w))) !! a = senders (sm w) !! a)
  /\ ttl (sm (snd (run_call (env, c) w))) = ttl (sm w).
Proof.
  split; [apply run_call_lookup_self |]. split; [| apply run_call_ttl].
  intros a Hne. now apply run_call_lookup_ne.
Qed.

(** X24.  [MaxFloat] returns an error exactly when [GetSenderInfo] fails, and
    then it is that error unchanged; the failing call has nevertheless cached
    the sender, with a [pendingAmount] of 0 if it was not cached before. *)
Theorem MaxFloat_error_is_GetSenderInfo_error
        (env : Env) (addr : Address) (w : World) (e : error) :
  (fst (MaxFloat env addr w) = Val (Err e) <-> GetSenderInfo env addr = Err e)
  /\ exists rs, senders (sm (snd (MaxFloat env addr w))) !! addr = Some rs
                /\ pendingAmount rs = pendingOr0 w addr
                /\ lastAccess rs = unixNow env.
Proof.
  split; [apply MaxFloat_error_iff |].
  rewrite MaxFloat_eq. simpl. rewrite touched_lookup. eexists. repeat split.
Qed.

(** X19.  For a withdraw round that fits in an [int64], [ValidateSender]
    returns an error exactly when the round is non-zero and at most
    [lastInitializedRound + 1]. *)
Theorem ValidateSender_rejects_iff_unlocks_soon
        (env : Env) (addr : Address) (w : World) (info : SenderInfo) :
  GetSenderInfo env addr = Ok info ->
  - 2 ^ 63 <= WithdrawRound info < 2 ^ 63 ->
  (exists e, fst (ValidateSender env addr w) = Val (Some e))
  <-> (WithdrawRound info <> 0
       /\ WithdrawRound info <= LastInitializedRound env + 1).
Proof.
  intros Hinfo Hr. rewrite ValidateSender_eq, Hinfo. simpl.
  rewrite Int64_in_range by exact Hr.
  destruct (WithdrawRound info =? 0) eqn:E0; simpl.
  - apply Z.eqb_eq in E0. split; [intros [e He]; discriminate | lia].
  - apply Z.eqb_neq in E0.
    destruct (WithdrawRound info <=? LastInitializedRound env + 1) eqn:E1.
    + apply Z.leb_le in E1. split; [tauto | eauto].
    + apply Z.leb_gt in E1. split; [intros [e He]; discriminate | lia].
Qed.

Lemma ValidateSender_rejects_iff_unlocks_soon_witness :
  (exists e,
      fst (ValidateSender
             (stubEnv (Ok (stubSenderInfo 900 100 6)) (Some 0, None) 5 10 None (Ok 77) None)
             7%N (freshWorld 1%N 60 []))
      = Val (Some e))
  <-> (6 <> 0 /\ 6 <= 5 + 1).
Proof.
  apply (ValidateSender_rejects_iff_unlocks_soon
           (stubEnv (Ok (stubSenderInfo 900 100 6)) (Some 0, None) 5 10 None (Ok 77) None)
           7%N (freshWorld 1%N 60 []) (stubSenderInfo 900 100 6)).
  - reflexivity.
  - simpl. lia.
Defined.

(** ** Validation, queueing and errors *)

(** X20.  For every integer round, [ValidateSender] accepts a sender whose
    withdraw round is unset (0) or lies after [lastInitializedRound + 1],
    and does so without touching the monitor. *)
Theorem ValidateSender_accepts_unset_or_late
        (env : Env) (addr : Address) (w : World) (info : SenderInfo) :
  GetSenderInfo env addr = Ok info ->
  WithdrawRound info = 0 \/ LastInitializedRound env + 1 < WithdrawRound info ->
  ValidateSender env addr w = (Val None, w).
Proof.
  intros Hinfo Hr. rewrite ValidateSender_eq, Hinfo.
  destruct Hr as [H0 | Hlate].
  - rewrite H0. reflexivity.
  - assert (E : (WithdrawRound info <=? LastInitializedRound env + 1) = false)
      by (apply Z.leb_gt; lia).
    now rewrite E, andb_false_r.
Qed.

Lemma ValidateSender_accepts_unset_or_late_witness :
  ValidateSender
    (stubEnv (Ok (stubSenderInfo 900 100 7)) (Some 0, None) 5 10 None (Ok 77) None)
    7%N (freshWorld 1%N 60 [])
  = (Val None, freshWorld 1%N 60 []).
Proof.
  apply (ValidateSender_accepts_unset_or_late
           (stubEnv (Ok (stubSenderInfo 900 100 7)) (Some 0, None) 5 10 None (Ok 77) None)
           7%N (freshWorld 1%N 60 []) (stubSenderInfo 900 100 7)).
  - reflexivity.
  - right. simpl. lia.
Defined.

(** X21.  Unlike the other public methods, [ValidateSender] never caches the
    sender and never refreshes [lastAccess]: it leaves the monitor, the
    store and the trace exactly as they were; a failing [GetSenderInfo]
    comes back wrapped with the address, and a sender it rejects is one
    whose withdraw round is non-zero and at most [lastInitializedRound + 1].
    (The sender info is one whose [WithdrawRound] is not nil.) *)
Theorem ValidateSender_leaves_monitor_untouched (env : Env) (addr : Address) (w : World) :
  snd (ValidateSender env addr w) = w
  /\ (forall e, GetSenderInfo env addr = Err e ->
                fst (ValidateSender env addr w) = Val (Some (ErrSenderInfo addr e)))
  /\ (forall info, GetSenderInfo env addr = Ok info ->
                   fst (ValidateSender env addr w) <> Val None ->
                   fst (ValidateSender env addr w) = Val (Some (ErrSenderUnlockSoon addr))
                   /\ unlocksSoon_spec (WithdrawRound info) (LastInitializedRound env)).
Proof.
  rewrite ValidateSender_eq. simpl. split; [reflexivity |]. split.
  - intros e He. now rewrite He.
  - intros info Hinfo. rewrite Hinfo.
    destruct (BigInt.Int64 (WithdrawRound info) =? 0) eqn:E0; simpl; [congruence |].
    destruct (WithdrawRound info <=? LastInitializedRound env + 1) eqn:E1; [| congruence].
    intros _. split; [reflexivity |]. unfold unlocksSoon_spec.
    apply Z.leb_le in E1. split; [| exact E1].
    intros H0. rewrite H0 in E0. discriminate.
Qed.

(** X22.  [QueueTicket] hands back exactly what the ticket store answered.
    When the store accepts, the ticket is appended behind the tickets already
    stored (first in, first out); when it refuses, the store is unchanged.
    Either way the ticket's sender is cached with [lastAccess] refreshed and
    no [pendingAmount] changes. *)
Theorem QueueTicket_appends_or_reports (env : Env) (ticket : SignedTicket) (w : World) :
  fst (QueueTicket env ticket w) = Val (StoreWinningTicket env ticket)
  /\ tickets (snd (QueueTicket env ticket w))
     = tickets w ++ match StoreWinningTicket env ticket with
                    | Some _ => []
                    | None => [ticket]
                    end
  /\ (exists rs, senders (sm (snd (QueueTicket env ticket w))) !! Sender (ticket_ ticket)
                 = Some rs
                 /\ lastAccess rs = unixNow env
                 /\ pendingAmount rs = pendingOr0 w (Sender (ticket_ ticket)))
  /\ forall a, pendingOr0 (snd (QueueTicket env ticket w)) a = pendingOr0 w a.
Proof.
  split; [| split; [| split]].
  - rewrite QueueTicket_eq. cbv zeta. now destruct (StoreWinningTicket env ticket).
  - rewrite QueueTicket_tickets. destruct (StoreWinningTicket env ticket);
      [now rewrite app_nil_r | reflexivity].
  - rewrite QueueTicket_eq. cbv zeta.
    destruct (StoreWinningTicket env ticket); simpl; rewrite touched_lookup;
      eexists; repeat split.
  - intros a. apply QueueTicket_pending.
Qed.
